(** * toyGPT tokenizer: byte pair encoding, verified against its specification

    A shallow embedding of [src/tokenizer/helper.py], [baseTokenizer.py],
    [basicTokenizer.py] and [advanceTokenizer.py].

    - Python [int] is [Z]; a [bytes] object is a list of byte values.
    - A Python [dict] keeps its keys in insertion order, and both [max] and
      [min] break ties by iteration order, so dictionaries are association
      lists with in-place update ([PyDict]).
    - A [str] is the list of its code points; [str.encode("utf-8")] and
      [bytes.decode("utf-8", errors="replace")] are the codec of [Utf8].
    - Exceptions are values of [exn]; a method that mutates [self] returns the
      tokenizer it leaves behind together with its outcome, so that the state
      after a raised exception can be inspected.
    - [regex.findall] with the fixed pattern is an external collaborator and
      is a parameter of the segmented tokenizer. *)

From Stdlib Require Import ZArith List Bool Lia FinFun.
Import ListNotations.
Open Scope Z_scope.

(* ------------------------------------------------------------------ *)
(** ** Exceptions *)

Inductive exn : Type :=
| AssertionError
| ValueError
| KeyError
| UnicodeEncodeError.

Inductive result (A : Type) : Type :=
| Ok (a : A)
| Raise (e : exn).

Arguments Ok {A} a.
Arguments Raise {A} e.

Definition bind {A B : Type} (m : result A) (k : A -> result B) : result B :=
  match m with
  | Ok a => k a
  | Raise e => Raise e
  end.

Notation "x <- m ;; k" := (bind m (fun x => k))
  (at level 61, m at next level, right associativity).

(** [\[f(x) for x in l\]] where [f] may raise: the first exception wins. *)
Fixpoint mapM {A B : Type} (f : A -> result B) (l : list A) : result (list B) :=
  match l with
  | [] => Ok []
  | x :: xs => y <- f x ;; ys <- mapM f xs ;; Ok (y :: ys)
  end.

(* ------------------------------------------------------------------ *)
(** ** Insertion-ordered dictionaries *)

(** Dictionary keys are compared with [==]. *)
Class EqKey (K : Type) : Type := { keqb : K -> K -> bool }.

Definition pair_eqb (p q : Z * Z) : bool :=
  (fst p =? fst q) && (snd p =? snd q).

(** [==] on keys decides equality. *)
Class EqKeyLaws (K : Type) `{EqKey K} : Prop := {
  keqb_eq : forall x y : K, keqb x y = true <-> x = y
}.

#[export] Instance EqKey_Z : EqKey Z := {| keqb := Z.eqb |}.

#[export] Instance EqKey_pair : EqKey (Z * Z) := {| keqb := pair_eqb |}.

Module PyDict.

Definition dict (K V : Type) : Type := list (K * V).

Definition empty {K V : Type} : dict K V := [].

(** [d.get(k)] *)
Fixpoint get {K V : Type} `{EqKey K} (d : dict K V) (k : K) : option V :=
  match d with
  | [] => None
  | (k', v) :: r => if keqb k k' then Some v else get r k
  end.

(** [d\[k\] = v]: an existing key keeps its position, a new key goes last. *)
Fixpoint set {K V : Type} `{EqKey K} (d : dict K V) (k : K) (v : V) : dict K V :=
  match d with
  | [] => [(k, v)]
  | (k', v') :: r => if keqb k k' then (k', v) :: r else (k', v') :: set r k v
  end.

(** [k in d] *)
Definition mem {K V : Type} `{EqKey K} (d : dict K V) (k : K) : bool :=
  match get d k with
  | Some _ => true
  | None => false
  end.

(** iteration over [d] yields its keys in insertion order *)
Definition keys {K V : Type} (d : dict K V) : list K := map fst d.

(** [d\[k\]] *)
Definition getitem {K V : Type} `{EqKey K} (d : dict K V) (k : K) : result V :=
  match get d k with
  | Some v => Ok v
  | None => Raise KeyError
  end.

End PyDict.

Abbreviation dict := PyDict.dict.

(* ------------------------------------------------------------------ *)
(** ** [min] and [max] with a key function *)

(** [min(l, key=key)] and [max(l, key=key)] scan [l] once and replace the
    current best only by a strictly better element, so the first extremal
    element wins; on an empty iterable both raise [ValueError]. *)
Definition py_best {A R : Type} (better : R -> R -> bool) (key : A -> R)
    (l : list A) : result A :=
  match l with
  | [] => Raise ValueError
  | x :: xs =>
      Ok (fold_left (fun best y => if better (key y) (key best) then y else best) xs x)
  end.

Definition py_min {A R : Type} (ltb : R -> R -> bool) (key : A -> R) (l : list A) : result A :=
  py_best ltb key l.

Definition py_max {A R : Type} (ltb : R -> R -> bool) (key : A -> R) (l : list A) : result A :=
  py_best (fun a b => ltb b a) key l.

(** The keys of [min] in [encode]: a merge id, or [float('inf')]. *)
Inductive rank : Type :=
| Rank (id : Z)
| Inf.

Definition rank_ltb (a b : rank) : bool :=
  match a, b with
  | Rank x, Rank y => x <? y
  | Rank _, Inf => true
  | Inf, _ => false
  end.

(* ------------------------------------------------------------------ *)
(** ** helper.py *)

Definition pair : Type := (Z * Z)%type.
Definition stats : Type := dict pair Z.

(** the body of the loop of [getPairStats] *)
Definition count_pair (pairStats : stats) (p : pair) : stats :=
  match PyDict.get pairStats p with
  | Some c => PyDict.set pairStats p (c + 1)
  | None => PyDict.set pairStats p 1
  end.

(** [getPairStats(byteList, pairStats)]; the dictionary passed in is the one
    updated and returned.  [range(len(byteList) - 1)] is empty for lists of
    length 0 and 1. *)
Definition getPairStats (byteList : list Z) (pairStats : option stats) : stats :=
  let pairStats := match pairStats with None => PyDict.empty | Some d => d end in
  fold_left
    (fun pairStats i => count_pair pairStats (nth i byteList 0, nth (i + 1) byteList 0))
    (seq 0 (length byteList - 1))
    pairStats.

(** The loop of [merge]: [i] is the read position, [newList] the output so
    far.  Every round advances [i], so [length oldList] rounds suffice. *)
Fixpoint merge_loop (fuel : nat) (oldList : list Z) (p : pair) (idx : Z)
    (i : nat) (newList : list Z) : list Z :=
  match fuel with
  | O => newList
  | S fuel' =>
      if (i <? length oldList)%nat then
        if (i <? length oldList - 1)%nat
           && (nth i oldList 0 =? fst p)
           && (nth (i + 1) oldList 0 =? snd p)
        then merge_loop fuel' oldList p idx (i + 2) (newList ++ [idx])
        else merge_loop fuel' oldList p idx (i + 1) (newList ++ [nth i oldList 0])
      else newList
  end.

Definition merge (oldList : list Z) (p : pair) (idx : Z) : list Z :=
  merge_loop (length oldList) oldList p idx 0 [].

(* ------------------------------------------------------------------ *)
(** ** The UTF-8 codec behind [str.encode] and [bytes.decode] *)

(** A [str] is its sequence of code points, a [bytes] object its sequence of
    byte values. *)
Definition str : Type := list Z.
Definition bytes : Type := list Z.

Module Utf8.

Definition is_surrogate (c : Z) : bool := (0xD800 <=? c) && (c <=? 0xDFFF).

(** The code points [str.encode("utf-8")] accepts: Unicode scalar values. *)
Definition scalar (c : Z) : Prop :=
  0 <= c <= 0x10FFFF /\ is_surrogate c = false.

Definition well_formed (text : str) : Prop := Forall scalar text.

(** One code point, in the layout of RFC 3629.  A lone surrogate raises
    [UnicodeEncodeError]; a [str] holds nothing outside [0, 0x10FFFF]. *)
Definition encode_char (c : Z) : result bytes :=
  if (c <? 0) || (0x10FFFF <? c) || is_surrogate c then Raise UnicodeEncodeError
  else if c <? 0x80 then Ok [c]
  else if c <? 0x800 then Ok [0xC0 + c / 64; 0x80 + c mod 64]
  else if c <? 0x10000 then
    Ok [0xE0 + c / 4096; 0x80 + (c / 64) mod 64; 0x80 + c mod 64]
  else
    Ok [0xF0 + c / 262144; 0x80 + (c / 4096) mod 64;
        0x80 + (c / 64) mod 64; 0x80 + c mod 64].

(** [text.encode("utf-8")] *)
Fixpoint encode (text : str) : result bytes :=
  match text with
  | [] => Ok []
  | c :: cs => b <- encode_char c ;; bs <- encode cs ;; Ok (b ++ bs)
  end.

(** U+FFFD REPLACEMENT CHARACTER *)
Definition replacement : Z := 0xFFFD.

Definition between (lo hi b : Z) : bool := (lo <=? b) && (b <=? hi).

Definition is_continuation (b : Z) : bool := between 0x80 0xBF b.

(** The second byte of a three- or four-byte sequence is restricted for the
    lead bytes E0, ED, F0 and F4 (no overlong forms, no surrogates, nothing
    above U+10FFFF). *)
Definition second_ok (b0 b1 : Z) : bool :=
  if b0 =? 0xE0 then between 0xA0 0xBF b1
  else if b0 =? 0xED then between 0x80 0x9F b1
  else if b0 =? 0xF0 then between 0x90 0xBF b1
  else if b0 =? 0xF4 then between 0x80 0x8F b1
  else is_continuation b1.

(** [bs.decode("utf-8", errors="replace")]: every maximal ill-formed run (an
    invalid lead byte, or a valid prefix cut short by a wrong byte or by the
    end of the data) becomes one U+FFFD and decoding resumes at the byte that
    broke the sequence. *)
Fixpoint decode_replace (bs : bytes) : str :=
  match bs with
  | [] => []
  | b0 :: r0 =>
      if b0 <? 0x80 then b0 :: decode_replace r0
      else if b0 <? 0xC2 then replacement :: decode_replace r0
      else if b0 <? 0xE0 then
        match r0 with
        | [] => [replacement]
        | b1 :: r1 =>
            if is_continuation b1
            then ((b0 - 0xC0) * 64 + (b1 - 0x80)) :: decode_replace r1
            else replacement :: decode_replace r0
        end
      else if b0 <? 0xF0 then
        match r0 with
        | [] => [replacement]
        | b1 :: r1 =>
            if second_ok b0 b1 then
              match r1 with
              | [] => [replacement]
              | b2 :: r2 =>
                  if is_continuation b2
                  then ((b0 - 0xE0) * 4096 + (b1 - 0x80) * 64 + (b2 - 0x80))
                         :: decode_replace r2
                  else replacement :: decode_replace r1
              end
            else replacement :: decode_replace r0
        end
      else if b0 <? 0xF5 then
        match r0 with
        | [] => [replacement]
        | b1 :: r1 =>
            if second_ok b0 b1 then
              match r1 with
              | [] => [replacement]
              | b2 :: r2 =>
                  if is_continuation b2 then
                    match r2 with
                    | [] => [replacement]
                    | b3 :: r3 =>
                        if is_continuation b3
                        then ((b0 - 0xF0) * 262144 + (b1 - 0x80) * 4096
                              + (b2 - 0x80) * 64 + (b3 - 0x80))
                               :: decode_replace r3
                        else replacement :: decode_replace r2
                    end
                  else replacement :: decode_replace r1
              end
            else replacement :: decode_replace r0
        end
      else replacement :: decode_replace r0
  end.

End Utf8.

(* ------------------------------------------------------------------ *)
(** ** baseTokenizer.py *)

Record tokenizer : Type := {
  merge_dict : dict pair Z;
  vocab_dict : dict Z bytes
}.

Definition with_merge (tk : tokenizer) (p : pair) (idx : Z) : tokenizer :=
  {| merge_dict := PyDict.set (merge_dict tk) p idx; vocab_dict := vocab_dict tk |}.

Definition with_vocab (tk : tokenizer) (idx : Z) (b : bytes) : tokenizer :=
  {| merge_dict := merge_dict tk; vocab_dict := PyDict.set (vocab_dict tk) idx b |}.

(** [range(n)] *)
Definition range (n : Z) : list Z := map Z.of_nat (seq 0 (Z.to_nat n)).

(** [{i: bytes(\[i\]) for i in range(256)}] *)
Definition base_vocab : dict Z bytes := map (fun i => (i, [i])) (range 256).

(** The loop of [_build_vocab_dict] over [merge_dict.items()]. *)
Fixpoint extend_vocab (items : list (pair * Z)) (vocab : dict Z bytes)
    : result (dict Z bytes) :=
  match items with
  | [] => Ok vocab
  | (key, val) :: rest =>
      l <- PyDict.getitem vocab (fst key) ;;
      r <- PyDict.getitem vocab (snd key) ;;
      extend_vocab rest (PyDict.set vocab val (l ++ r))
  end.

Definition _build_vocab_dict (merges : dict pair Z) : result (dict Z bytes) :=
  extend_vocab merges base_vocab.

(** [BaseTokenizer.__init__]: no merges, and the vocabulary that
    [_build_vocab_dict] returns for no merges, the 256 single-byte entries. *)
Definition init : tokenizer :=
  {| merge_dict := PyDict.empty; vocab_dict := base_vocab |}.

Module BaseTokenizer.

Definition encode (text : str) : result (list Z) := Utf8.encode text.

(** [b"".join(self.vocab_dict\[t\] for t in tokenIds)] *)
Fixpoint join_vocab (vocab : dict Z bytes) (tokenIds : list Z) : result bytes :=
  match tokenIds with
  | [] => Ok []
  | t :: ts =>
      b <- PyDict.getitem vocab t ;;
      bs <- join_vocab vocab ts ;;
      Ok (b ++ bs)
  end.

Definition decode (tk : tokenizer) (tokenIds : list Z) : result str :=
  text_bytes <- join_vocab (vocab_dict tk) tokenIds ;;
  Ok (Utf8.decode_replace text_bytes).

(** The lines [save] writes to the [.model] file, one [p0 p1 value] per merge
    rule in dictionary order, as the three integers of each line. *)
Definition save_model (tk : tokenizer) : list (Z * Z * Z) :=
  map (fun kv => (fst (fst kv), snd (fst kv), snd kv)) (merge_dict tk).

(** [load] on the integers of the lines of a model file: every line is
    recorded, then the vocabulary is rebuilt.  When the rebuild raises, the
    merge rules already stored stay and the old vocabulary is kept. *)
Definition load (tk : tokenizer) (lines : list (Z * Z * Z)) : tokenizer * result unit :=
  let merges :=
    fold_left (fun d l => PyDict.set d (fst (fst l), snd (fst l)) (snd l))
              lines (merge_dict tk) in
  match _build_vocab_dict merges with
  | Ok vocab => ({| merge_dict := merges; vocab_dict := vocab |}, Ok tt)
  | Raise e => ({| merge_dict := merges; vocab_dict := vocab_dict tk |}, Raise e)
  end.

End BaseTokenizer.

(* ------------------------------------------------------------------ *)
(** ** basicTokenizer.py *)

(** [pairStats\[x\]] for [x] drawn from the keys of [pairStats] (the lookup
    cannot miss there). *)
Definition count_of (pairStats : stats) (x : pair) : Z :=
  match PyDict.get pairStats x with
  | Some c => c
  | None => 0
  end.

(** [self.merge_dict.get(x, float('inf'))] *)
Definition rank_of (merges : dict pair Z) (x : pair) : rank :=
  match PyDict.get merges x with
  | Some idx => Rank idx
  | None => Inf
  end.

(** The last two statements of a training round, shared by both trainers:
    record the rule, then extend the vocabulary.  The rule is stored before
    the vocabulary is read. *)
Definition learn (tk : tokenizer) (p : pair) (idx : Z) : tokenizer * result unit :=
  let tk1 := with_merge tk p idx in
  match PyDict.getitem (vocab_dict tk1) (fst p) with
  | Raise e => (tk1, Raise e)
  | Ok l =>
      match PyDict.getitem (vocab_dict tk1) (snd p) with
      | Raise e => (tk1, Raise e)
      | Ok r => (with_vocab tk1 idx (l ++ r), Ok tt)
      end
  end.

(** The [while] loop of [encode], the same in [BasicTokenizer.encode] and,
    per subword, in [AdvanceTokenizer.encode].  Each merge applied shortens
    the list, so [length byte_ids] rounds suffice. *)
Fixpoint encode_loop (fuel : nat) (merges : dict pair Z) (byte_ids : list Z)
    : result (list Z) :=
  match fuel with
  | O => Ok byte_ids
  | S fuel' =>
      if (2 <=? length byte_ids)%nat then
        let pairStats := getPairStats byte_ids None in
        p <- py_min rank_ltb (rank_of merges) (PyDict.keys pairStats) ;;
        if negb (PyDict.mem merges p) then Ok byte_ids
        else
          idx <- PyDict.getitem merges p ;;
          encode_loop fuel' merges (merge byte_ids p idx)
      else Ok byte_ids
  end.

Definition bpe (merges : dict pair Z) (byte_ids : list Z) : result (list Z) :=
  encode_loop (length byte_ids) merges byte_ids.

Module BasicTokenizer.

(** The [for i in range(num_of_merges)] loop of [train]. *)
Fixpoint train_loop (idxs : list Z) (byte_ids : list Z) (tk : tokenizer)
    : tokenizer * result unit :=
  match idxs with
  | [] => (tk, Ok tt)
  | i :: rest =>
      let pairStats := getPairStats byte_ids None in
      match py_max Z.ltb (count_of pairStats) (PyDict.keys pairStats) with
      | Raise e => (tk, Raise e)
      | Ok p =>
          let byte_ids' := merge byte_ids p (256 + i) in
          match learn tk p (256 + i) with
          | (tk', Raise e) => (tk', Raise e)
          | (tk', Ok _) => train_loop rest byte_ids' tk'
          end
      end
  end.

Definition train (tk : tokenizer) (text : str) (vocab_size : Z)
    : tokenizer * result unit :=
  if negb (256 <=? vocab_size) then (tk, Raise AssertionError)
  else
    let num_of_merges := vocab_size - 256 in
    match Utf8.encode text with
    | Raise e => (tk, Raise e)
    | Ok byte_ids => train_loop (range num_of_merges) byte_ids tk
    end.

Definition encode (tk : tokenizer) (text : str) : result (list Z) :=
  byte_ids <- Utf8.encode text ;;
  bpe (merge_dict tk) byte_ids.

Definition decode (tk : tokenizer) (tokenIds : list Z) : result str :=
  BaseTokenizer.decode tk tokenIds.

End BasicTokenizer.

(* ------------------------------------------------------------------ *)
(** ** advanceTokenizer.py *)

Module AdvanceTokenizer.
Section WithPattern.

(** [re.findall(self.compiled_pattern, text)]: the matches of the fixed
    pattern, in input order. *)
Variable findall : str -> list str.

(** [pairStats = {}] followed by the loop over the subwords. *)
Definition all_pair_stats (bytes_list : list (list Z)) : stats :=
  fold_left (fun pairStats subword => getPairStats subword (Some pairStats))
            bytes_list PyDict.empty.

Fixpoint train_loop (idxs : list Z) (bytes_list : list (list Z)) (tk : tokenizer)
    : tokenizer * result unit :=
  match idxs with
  | [] => (tk, Ok tt)
  | i :: rest =>
      let pairStats := all_pair_stats bytes_list in
      match py_max Z.ltb (count_of pairStats) (PyDict.keys pairStats) with
      | Raise e => (tk, Raise e)
      | Ok p =>
          let bytes_list' := map (fun subword => merge subword p (256 + i)) bytes_list in
          match learn tk p (256 + i) with
          | (tk', Raise e) => (tk', Raise e)
          | (tk', Ok _) => train_loop rest bytes_list' tk'
          end
      end
  end.

Definition train (tk : tokenizer) (text : str) (vocab_size : Z)
    : tokenizer * result unit :=
  if negb (256 <=? vocab_size) then (tk, Raise AssertionError)
  else
    let num_of_merges := vocab_size - 256 in
    let text_list := findall text in
    match mapM Utf8.encode text_list with
    | Raise e => (tk, Raise e)
    | Ok bytes_list => train_loop (range num_of_merges) bytes_list tk
    end.

(** The [for subword in bytes_list] loop of [encode]; [encoded_text] is the
    list being extended. *)
Fixpoint encode_subwords (merges : dict pair Z) (bytes_list : list (list Z))
    (encoded_text : list Z) : result (list Z) :=
  match bytes_list with
  | [] => Ok encoded_text
  | subword :: rest =>
      subword' <- bpe merges subword ;;
      encode_subwords merges rest (encoded_text ++ subword')
  end.

Definition encode (tk : tokenizer) (text : str) : result (list Z) :=
  let text_list := findall text in
  bytes_list <- mapM Utf8.encode text_list ;;
  encode_subwords (merge_dict tk) bytes_list [].

Definition decode (tk : tokenizer) (tokenIds : list Z) : result str :=
  text_bytes <- BaseTokenizer.join_vocab (vocab_dict tk) tokenIds ;;
  Ok (Utf8.decode_replace text_bytes).

End WithPattern.
End AdvanceTokenizer.

(* ------------------------------------------------------------------ *)
(** ** Reference definitions, written from the specification's wording *)

(** "scans left to right; wherever two consecutive elements equal [pair],
    replaces them with [newId] and advances past both; otherwise copies the
    element". *)
Fixpoint applyMerge (sequence : list Z) (p : pair) (newId : Z) : list Z :=
  match sequence with
  | a :: ((b :: rest) as tl) =>
      if (a =? fst p) && (b =? snd p)
      then newId :: applyMerge rest p newId
      else a :: applyMerge tl p newId
  | _ => sequence
  end.

(** The adjacent pairs [(seq\[i\], seq\[i+1\])] of a sequence, in order. *)
Fixpoint adjacent (sequence : list Z) : list pair :=
  match sequence with
  | a :: ((b :: _) as tl) => (a, b) :: adjacent tl
  | _ => []
  end.

(** "counts each adjacent pair (seq\[i\], seq\[i+1\]) for i in \[0, len-2\]":
    the number of positions at which [p] occurs. *)
Definition occurrences (sequence : list Z) (p : pair) : Z :=
  Z.of_nat (length (filter (fun i => pair_eqb (nth i sequence 0, nth (i + 1) sequence 0) p)
                           (seq 0 (length sequence - 1)))).

(** "among pairs present in the sequence, select the one whose recorded
    merge rank (position/ID in the merge table) is smallest": [p] is present,
    it is in the merge table with id [idx], and no present pair has a smaller
    id. *)
Definition least_rank (merges : dict pair Z) (sequence : list Z) (p : pair) (idx : Z) : Prop :=
  In p (adjacent sequence) /\
  PyDict.get merges p = Some idx /\
  forall q idx', In q (adjacent sequence) -> PyDict.get merges q = Some idx' -> idx <= idx'.

(** Adding [n] observed occurrences to a dictionary entry: an absent key
    stays absent when nothing was observed. *)
Definition add_count (entry : option Z) (n : Z) : option Z :=
  match entry with
  | Some c => Some (c + n)
  | None => if n =? 0 then None else Some n
  end.

Definition sumZ (l : list Z) : Z := fold_right Z.add 0 l.

(** occurrences of [p] in a list of pairs *)
Definition tally (ps : list pair) (p : pair) : Z :=
  Z.of_nat (length (filter (fun q => pair_eqb q p) ps)).

(** One round of the loop, as a function of the current sequence. *)
Definition encode_round (merges : dict pair Z) (s : list Z)
    (continue : list Z -> result (list Z)) : result (list Z) :=
  if (2 <=? length s)%nat then
    p <- py_min rank_ltb (rank_of merges) (PyDict.keys (getPairStats s None)) ;;
    if negb (PyDict.mem merges p) then Ok s
    else idx <- PyDict.getitem merges p ;; continue (merge s p idx)
  else Ok s.

(** ** Invariants of a tokenizer *)

(** The ids of the merge rules, in dictionary order. *)
Definition rule_ids (tk : tokenizer) : list Z := map snd (merge_dict tk).

(** What encode and decode rely on: the 256 byte entries are in place and the
    entry of every rule's id is the concatenation of its two parts. *)
Record consistent (tk : tokenizer) : Prop := {
  base_entries :
    forall b, 0 <= b < 256 -> PyDict.get (vocab_dict tk) b = Some [b];
  rule_entries :
    forall p idx, PyDict.get (merge_dict tk) p = Some idx ->
      exists l r, PyDict.get (vocab_dict tk) (fst p) = Some l /\
                  PyDict.get (vocab_dict tk) (snd p) = Some r /\
                  PyDict.get (vocab_dict tk) idx = Some (l ++ r)
}.

(** The state of a training run that has learned [n] rules, with [seqs] the
    working sequences (one for the flat trainer, one per segment for the
    segmented one). *)
Record training (n : nat) (seqs : list (list Z)) (tk : tokenizer) : Prop := {
  tr_consistent : consistent tk;
  tr_ids : rule_ids tk = map (fun k => 256 + Z.of_nat k) (seq 0 n);
  tr_build : _build_vocab_dict (merge_dict tk) = Ok (vocab_dict tk);
  tr_domain :
    forall x, 0 <= x < 256 + Z.of_nat n <-> PyDict.get (vocab_dict tk) x <> None;
  tr_symbols :
    forall s x, In s seqs -> In x s -> 0 <= x < 256 + Z.of_nat n;
  tr_parts :
    forall p idx, In (p, idx) (merge_dict tk) ->
      0 <= fst p < idx /\ 0 <= snd p < idx /\ idx < 256 + Z.of_nat n;
  tr_fresh :
    forall s p, In s seqs -> In p (adjacent s) -> PyDict.get (merge_dict tk) p = None;
  tr_nodup : NoDup (PyDict.keys (merge_dict tk))
}.

(** ** A concrete matcher to run the segmented tokenizer on *)

(** Cuts the text after every space.  It stands in for the pattern wherever
    a statement about the segmented tokenizer is evaluated on an input. *)
Fixpoint cut_after_space (cur : str) (text : str) : list str :=
  match text with
  | [] => match cur with [] => [] | _ => [cur] end
  | c :: cs =>
      if c =? 32 then (cur ++ [c]) :: cut_after_space [] cs
      else cut_after_space (cur ++ [c]) cs
  end.

Definition words (text : str) : list str := cut_after_space [] text.

(** The state and the outcome of a [train] call on a fresh tokenizer. *)
Definition train_outcome (text_ok : Prop) (vocab_size : Z)
    (r : tokenizer * result unit) : Prop :=
  exists n seqs,
    training n seqs (fst r) /\
    match snd r with
    | Ok _ => 256 <= vocab_size /\ Z.of_nat n = vocab_size - 256
    | Raise AssertionError => vocab_size < 256 /\ fst r = init
    | Raise UnicodeEncodeError => 256 <= vocab_size /\ ~ text_ok /\ fst r = init
    | Raise ValueError =>
        256 <= vocab_size /\ Z.of_nat n < vocab_size - 256 /\
        forall s, In s seqs -> (length s < 2)%nat
    | Raise KeyError => False
    end.

(** The vocabulary invariant of the data model: byte entries, rule entries
    with ids from 256 on, and the vocabulary being what [_build_vocab_dict]
    computes from the merge rules in their stored order. *)
Definition vocabulary_invariant (tk : tokenizer) : Prop :=
  (forall id, 0 <= id < 256 -> PyDict.get (vocab_dict tk) id = Some [id]) /\
  (forall p idx, PyDict.get (merge_dict tk) p = Some idx ->
     256 <= idx /\
     exists l r, PyDict.get (vocab_dict tk) (fst p) = Some l /\
                 PyDict.get (vocab_dict tk) (snd p) = Some r /\
                 PyDict.get (vocab_dict tk) idx = Some (l ++ r)) /\
  _build_vocab_dict (merge_dict tk) = Ok (vocab_dict tk).

(** Saving the rules and loading them into a fresh tokenizer gives the
    tokenizer back. *)
Definition reloads (tk : tokenizer) : Prop :=
  BaseTokenizer.load init (BaseTokenizer.save_model tk) = (tk, Ok tt).

(** The ids [256, 257, ...] of the first [n] merges. *)
Definition first_ids (n : nat) : list Z := map (fun k => 256 + Z.of_nat k) (seq 0 n).

(** The tokenizers that calls of [train] can produce from a fresh one. *)
Inductive reachable (findall : str -> list str) : tokenizer -> Prop :=
| reach_init : reachable findall init
| reach_basic (tk : tokenizer) (text : str) (vocab_size : Z) :
    reachable findall tk ->
    reachable findall (fst (BasicTokenizer.train tk text vocab_size))
| reach_advance (tk : tokenizer) (text : str) (vocab_size : Z) :
    reachable findall tk ->
    reachable findall (fst (AdvanceTokenizer.train findall tk text vocab_size)).

(* ------------------------------------------------------------------ *)
(** ** Definitions for the further properties *)

(** Undoing a merge: every [idx] becomes the two parts of the pair again. *)
Definition expand (l : list Z) (p : pair) (idx : Z) : list Z :=
  flat_map (fun x => if x =? idx then [fst p; snd p] else [x]) l.

(** The distinct elements of [ps] in the order of their first occurrence,
    after those of [seen]. *)
Fixpoint first_seen (ps : list pair) (seen : list pair) : list pair :=
  match ps with
  | [] => seen
  | q :: r =>
      if existsb (pair_eqb q) seen then first_seen r seen
      else first_seen r (seen ++ [q])
  end.

(** The sum of the counts held by a statistics dictionary. *)
Definition total (pairStats : stats) : Z := sumZ (map snd pairStats).

(** [b] is the first element of [l] whose key is greatest: everything before
    it has a smaller key, nothing after it has a greater one. *)
Definition first_max {A : Type} (key : A -> Z) (l : list A) (b : A) : Prop :=
  exists xs ys, l = xs ++ b :: ys /\
                (forall a, In a xs -> key a < key b) /\
                (forall a, In a ys -> key a <= key b).

(** The merge rules are in dependency order: both parts of every rule are
    ids known when the rule is reached, where the known ids are those of
    [known] and the ids of the rules before it. *)
Fixpoint in_order (known : list Z) (items : list (pair * Z)) : bool :=
  match items with
  | [] => true
  | (key, val) :: rest =>
      existsb (Z.eqb (fst key)) known && existsb (Z.eqb (snd key)) known
      && in_order (val :: known) rest
  end.

(** The id the last line for the pair [k] gives it, if a line names [k]. *)
Definition last_rule (lines : list (Z * Z * Z)) (k : pair) : option Z :=
  fold_left (fun acc l => if pair_eqb (fst l) k then Some (snd l) else acc) lines None.

(** The training loop of [AdvanceTokenizer.train_loop], returning beside the
    tokenizer and the outcome the working sequences it stopped with. *)
Fixpoint train_run (idxs : list Z) (bytes_list : list (list Z)) (tk : tokenizer)
    : tokenizer * list (list Z) * result unit :=
  match idxs with
  | [] => (tk, bytes_list, Ok tt)
  | i :: rest =>
      let pairStats := AdvanceTokenizer.all_pair_stats bytes_list in
      match py_max Z.ltb (count_of pairStats) (PyDict.keys pairStats) with
      | Raise e => (tk, bytes_list, Raise e)
      | Ok p =>
          let bytes_list' := map (fun subword => merge subword p (256 + i)) bytes_list in
          match learn tk p (256 + i) with
          | (tk', Raise e) => (tk', bytes_list', Raise e)
          | (tk', Ok _) => train_run rest bytes_list' tk'
          end
      end
  end.

(* ------------------------------------------------------------------ *)
(** * Proofs *)

(** ** Dictionaries *)

Lemma pair_eqb_eq (p q : Z * Z) : pair_eqb p q = true <-> p = q.
Proof.
  destruct p as [a b], q as [c d]; unfold pair_eqb; simpl.
  rewrite andb_true_iff, !Z.eqb_eq. split; [intros [-> ->] | intros [= -> ->]]; auto.
Qed.

#[export] Instance EqKeyLaws_Z : EqKeyLaws Z.
Proof. constructor. intros x y. apply Z.eqb_eq. Qed.

#[export] Instance EqKeyLaws_pair : EqKeyLaws (Z * Z).
Proof. constructor. intros x y. apply pair_eqb_eq. Qed.

Section DictLaws.
Context {K V : Type} `{EqKeyLaws K}.
Implicit Types (d : dict K V) (k : K) (v : V).

Lemma keqb_spec k k' : reflect (k = k') (keqb k k').
Proof. apply iff_reflect. symmetry. apply keqb_eq. Qed.

Lemma keqb_refl k : keqb k k = true.
Proof. destruct (keqb_spec k k); congruence. Qed.

Lemma keqb_neq k k' : k <> k' -> keqb k k' = false.
Proof. intros Hn; destruct (keqb_spec k k'); congruence. Qed.

Lemma get_set_eq d k v : PyDict.get (PyDict.set d k v) k = Some v.
Proof.
  induction d as [|[k' v'] r IH]; simpl.
  - now rewrite keqb_refl.
  - destruct (keqb_spec k k') as [->|Hn]; simpl.
    + now rewrite keqb_refl.
    + now rewrite (keqb_neq _ _ Hn).
Qed.

Lemma get_set_neq d k k' v : k <> k' -> PyDict.get (PyDict.set d k v) k' = PyDict.get d k'.
Proof.
  intros Hn; induction d as [|[k0 v0] r IH]; simpl.
  - rewrite keqb_neq; auto.
  - destruct (keqb_spec k k0) as [->|Hn0]; simpl.
    + rewrite keqb_neq; auto.
    + now rewrite IH.
Qed.

Lemma get_set d k k' v :
  PyDict.get (PyDict.set d k v) k' = if keqb k k' then Some v else PyDict.get d k'.
Proof.
  destruct (keqb_spec k k') as [->|Hn].
  - apply get_set_eq.
  - now apply get_set_neq.
Qed.

Lemma get_In d k v : PyDict.get d k = Some v -> In (k, v) d.
Proof.
  induction d as [|[k' v'] r IH]; simpl; [discriminate|].
  destruct (keqb_spec k k') as [->|Hn].
  - intros [= ->]; now left.
  - intros Hg; right; auto.
Qed.

Lemma get_None_keys d k : PyDict.get d k = None <-> ~ In k (PyDict.keys d).
Proof.
  induction d as [|[k' v'] r IH]; simpl.
  - tauto.
  - destruct (keqb_spec k k') as [->|Hn].
    + split; [discriminate | intros Hc; exfalso; apply Hc; now left].
    + rewrite IH. split; [intros Hc [He|Hi]; [congruence | tauto] | tauto].
Qed.

Lemma mem_keys d k : PyDict.mem d k = true <-> In k (PyDict.keys d).
Proof.
  unfold PyDict.mem. destruct (PyDict.get d k) eqn:Hg.
  - split; [intros _ | reflexivity].
    apply get_In in Hg. unfold PyDict.keys. now apply (in_map fst) in Hg.
  - apply get_None_keys in Hg. split; [discriminate | tauto].
Qed.

Lemma set_absent d k v : PyDict.get d k = None -> PyDict.set d k v = d ++ [(k, v)].
Proof.
  induction d as [|[k' v'] r IH]; simpl; [reflexivity|].
  destruct (keqb_spec k k') as [->|Hn]; [discriminate|].
  intros Hg. now rewrite IH.
Qed.

End DictLaws.

(* ------------------------------------------------------------------ *)
(** ** helper.merge *)

Lemma list_ind2 (P : list Z -> Prop) :
  P [] -> (forall a, P [a]) ->
  (forall a b r, P r -> P (b :: r) -> P (a :: b :: r)) ->
  forall l, P l.
Proof.
  intros H0 H1 H2 l.
  enough (P l /\ forall a, P (a :: l)) by tauto.
  induction l as [|b r [IHr IHbr]]; split; auto.
Qed.

Lemma skipn_nth (l : list Z) (i : nat) (d : Z) :
  (i < length l)%nat -> skipn i l = nth i l d :: skipn (S i) l.
Proof.
  revert i; induction l as [|a l IH]; intros i Hi; simpl in Hi; [lia|].
  destruct i as [|i]; [reflexivity|].
  simpl. apply IH. lia.
Qed.

Lemma merge_loop_scan (l : list Z) (p : pair) (idx : Z) (fuel : nat) :
  forall (i : nat) (acc : list Z),
    (length l - i <= fuel)%nat ->
    merge_loop fuel l p idx i acc = acc ++ applyMerge (skipn i l) p idx.
Proof.
  induction fuel as [|fuel IH]; intros i acc Hf; simpl.
  - rewrite skipn_all2 by lia. simpl. now rewrite app_nil_r.
  - destruct (Nat.ltb_spec i (length l)) as [Hi|Hi].
    + rewrite (skipn_nth l i 0 Hi).
      destruct (Nat.ltb_spec i (length l - 1)) as [Hi1|Hi1]; simpl andb.
      * replace (i + 1)%nat with (S i) by lia.
        replace (i + 2)%nat with (S (S i)) by lia.
        rewrite !IH by lia. rewrite <- !app_assoc.
        rewrite (skipn_nth l (S i) 0) by lia.
        generalize (skipn (S (S i)) l) as rest; intros rest. cbn [app applyMerge].
        now destruct ((nth i l 0 =? fst p) && (nth (S i) l 0 =? snd p)).
      * replace (i + 1)%nat with (S i) by lia.
        rewrite IH by lia.
        rewrite (skipn_all2 l (n := S i)) by lia.
        now rewrite <- app_assoc.
    + rewrite skipn_all2 by lia. simpl. now rewrite app_nil_r.
Qed.

Lemma merge_applyMerge (l : list Z) (p : pair) (idx : Z) :
  merge l p idx = applyMerge l p idx.
Proof.
  unfold merge. rewrite merge_loop_scan by lia. reflexivity.
Qed.

Lemma applyMerge_length (l : list Z) (p : pair) (idx : Z) :
  (length (applyMerge l p idx) <= length l)%nat.
Proof.
  induction l as [| a | a b r IHr IHbr] using list_ind2; simpl; try lia.
  destruct ((a =? fst p) && (b =? snd p)); simpl in *; lia.
Qed.

(** C4. [merge] is the single left-to-right scan of the specification: it
    equals [applyMerge], which replaces a match by the new id and steps past
    both elements and otherwise copies one element; the output is never longer
    than the input; on the two examples it yields [99;3;99;4] and [x;a]. *)
Theorem merge_scan_semantics :
  (forall (l : list Z) (p : pair) (idx : Z), merge l p idx = applyMerge l p idx) /\
  (forall (l : list Z) (p : pair) (idx : Z),
      (length (merge l p idx) <= length l)%nat) /\
  merge [1; 2; 3; 1; 2; 4] (1, 2) 99 = [99; 3; 99; 4] /\
  (forall a x : Z, merge [a; a; a] (a, a) x = [x; a]).
Proof.
  split; [exact merge_applyMerge|].
  split; [intros; rewrite merge_applyMerge; apply applyMerge_length|].
  split; [reflexivity|].
  intros a x. rewrite merge_applyMerge. simpl. now rewrite Z.eqb_refl.
Qed.

(* ------------------------------------------------------------------ *)
(** ** helper.getPairStats *)

Lemma fold_left_map_arg {A B C : Type} (f : A -> B -> A) (g : C -> B) (l : list C) (a : A) :
  fold_left (fun acc i => f acc (g i)) l a = fold_left f (map g l) a.
Proof. revert a; induction l as [|x l IH]; intros a; simpl; auto. Qed.

Lemma adjacent_by_index (l : list Z) :
  map (fun i => (nth i l 0, nth (i + 1) l 0)) (seq 0 (length l - 1)) = adjacent l.
Proof.
  induction l as [| a | a b r _ IH] using list_ind2; try reflexivity.
  replace (length (a :: b :: r) - 1)%nat with (S (length (b :: r) - 1)) by (simpl; lia).
  change (adjacent (a :: b :: r)) with ((a, b) :: adjacent (b :: r)).
  rewrite <- IH. cbn [seq map]. f_equal.
  rewrite <- seq_shift, map_map.
  apply map_ext. intros i. reflexivity.
Qed.

Lemma getPairStats_fold (l : list Z) (acc : option stats) :
  getPairStats l acc
  = fold_left count_pair (adjacent l) (match acc with None => PyDict.empty | Some d => d end).
Proof.
  unfold getPairStats.
  rewrite (fold_left_map_arg count_pair (fun i => (nth i l 0, nth (i + 1) l 0))).
  now rewrite adjacent_by_index.
Qed.

Lemma tally_nonneg ps p : 0 <= tally ps p.
Proof. unfold tally. lia. Qed.

Lemma tally_cons q ps p :
  tally (q :: ps) p = (if pair_eqb q p then 1 else 0) + tally ps p.
Proof.
  unfold tally. cbn [filter]. destruct (pair_eqb q p); cbn [length]; lia.
Qed.

Lemma tally_pos_In ps p : 0 < tally ps p <-> In p ps.
Proof.
  induction ps as [|q ps IH]; [unfold tally; simpl; lia|].
  rewrite tally_cons. pose proof (tally_nonneg ps p) as Hn.
  destruct (pair_eqb q p) eqn:E.
  - apply pair_eqb_eq in E. subst. split; [now left | lia].
  - split.
    + intros Hp. right. apply IH. lia.
    + intros [->|Hi].
      * rewrite (proj2 (pair_eqb_eq p p) eq_refl) in E. discriminate.
      * apply IH in Hi. lia.
Qed.

Lemma occurrences_tally (l : list Z) (p : pair) :
  occurrences l p = tally (adjacent l) p.
Proof.
  unfold occurrences, tally. rewrite <- adjacent_by_index. f_equal.
  generalize (seq 0 (length l - 1)) as idxs.
  induction idxs as [|i idxs IH]; [reflexivity|]. simpl.
  destruct (pair_eqb (nth i l 0, nth (i + 1) l 0) p); simpl; now rewrite IH.
Qed.

Lemma get_count_pair (st : stats) (q p : pair) :
  PyDict.get (count_pair st q) p
  = if pair_eqb q p then Some (count_of st p + 1) else PyDict.get st p.
Proof.
  unfold count_pair, count_of.
  destruct (pair_eqb q p) eqn:E.
  - apply pair_eqb_eq in E; subst q.
    destruct (PyDict.get st p); now rewrite get_set_eq.
  - assert (q <> p) as Hn by (intros ->; rewrite (proj2 (pair_eqb_eq p p) eq_refl) in E; discriminate).
    destruct (PyDict.get st q); now rewrite get_set_neq.
Qed.

Lemma get_fold_count (ps : list pair) (st : stats) (p : pair) :
  PyDict.get (fold_left count_pair ps st) p = add_count (PyDict.get st p) (tally ps p).
Proof.
  revert st; induction ps as [|q ps IH]; intros st.
  - simpl. unfold tally; simpl. destruct (PyDict.get st p); simpl; [f_equal; lia | reflexivity].
  - simpl fold_left. rewrite IH, get_count_pair, tally_cons.
    pose proof (tally_nonneg ps p) as Hn. unfold count_of.
    clear IH. generalize dependent (tally ps p). intros n Hn.
    destruct (pair_eqb q p).
    + destruct (PyDict.get st p); cbn [add_count].
      * f_equal; lia.
      * destruct (Z.eqb_spec (1 + n) 0); [lia | f_equal; lia].
    + now rewrite Z.add_0_l.
Qed.

Lemma get_getPairStats (l : list Z) (acc : stats) (p : pair) :
  PyDict.get (getPairStats l (Some acc)) p = add_count (PyDict.get acc p) (occurrences l p).
Proof. now rewrite getPairStats_fold, get_fold_count, occurrences_tally. Qed.

Lemma get_getPairStats_fresh (l : list Z) (p : pair) :
  PyDict.get (getPairStats l None) p = add_count None (occurrences l p).
Proof. now rewrite getPairStats_fold, get_fold_count, occurrences_tally. Qed.

Lemma getPairStats_short (l : list Z) (acc : option stats) :
  (length l < 2)%nat ->
  getPairStats l acc = match acc with None => PyDict.empty | Some d => d end.
Proof.
  intros Hl. rewrite getPairStats_fold.
  destruct l as [|a [|b r]]; simpl in *; try reflexivity; lia.
Qed.

Lemma add_count_add (o : option Z) (n m : Z) :
  0 <= n -> 0 <= m -> add_count (add_count o n) m = add_count o (n + m).
Proof.
  intros Hn Hm. destruct o as [c|]; simpl.
  - f_equal; lia.
  - destruct (Z.eqb_spec n 0) as [->|Hn0]; simpl.
    + reflexivity.
    + destruct (Z.eqb_spec (n + m) 0); [lia | reflexivity].
Qed.

Lemma occurrences_nonneg l p : 0 <= occurrences l p.
Proof. unfold occurrences. lia. Qed.

Lemma sumZ_occ_nonneg (segs : list (list Z)) (p : pair) :
  0 <= sumZ (map (fun s => occurrences s p) segs).
Proof.
  induction segs as [|s segs IH]; simpl; [lia|].
  pose proof (occurrences_nonneg s p). lia.
Qed.

Lemma get_fold_segments (segs : list (list Z)) (acc : stats) (p : pair) :
  PyDict.get (fold_left (fun st s => getPairStats s (Some st)) segs acc) p
  = add_count (PyDict.get acc p) (sumZ (map (fun s => occurrences s p) segs)).
Proof.
  revert acc; induction segs as [|s segs IH]; intros acc; simpl.
  - destruct (PyDict.get acc p); simpl; [f_equal; lia | reflexivity].
  - rewrite IH, get_getPairStats, add_count_add; auto using occurrences_nonneg, sumZ_occ_nonneg.
Qed.

(** C8. [getPairStats] maps each adjacent pair to the number of positions
    [i] in [0, len-2] at which it occurs and holds no other key; with an
    accumulator the counts are added into the accumulator's entries; a
    sequence shorter than two elements contributes nothing; and folding
    several segments through one accumulator gives, for every pair, the sum of
    the counts of the segments taken one by one. *)
Theorem getPairStats_semantics :
  (forall (l : list Z) (p : pair),
      PyDict.get (getPairStats l None) p
      = if occurrences l p =? 0 then None else Some (occurrences l p)) /\
  (forall (l : list Z) (acc : stats) (p : pair),
      PyDict.get (getPairStats l (Some acc)) p
      = match PyDict.get acc p with
        | Some c => Some (c + occurrences l p)
        | None => if occurrences l p =? 0 then None else Some (occurrences l p)
        end) /\
  (forall (l : list Z) (acc : stats),
      (length l < 2)%nat ->
      getPairStats l None = PyDict.empty /\ getPairStats l (Some acc) = acc) /\
  (forall (segs : list (list Z)) (p : pair),
      count_of (AdvanceTokenizer.all_pair_stats segs) p
      = sumZ (map (fun s => count_of (getPairStats s None) p) segs) /\
      (PyDict.mem (AdvanceTokenizer.all_pair_stats segs) p = true
       <-> exists s, In s segs /\ PyDict.mem (getPairStats s None) p = true)).
Proof.
  unfold AdvanceTokenizer.all_pair_stats.
  split; [intros; apply get_getPairStats_fresh|].
  split; [intros; apply get_getPairStats|].
  split.
  { intros l acc Hl. split.
    - now rewrite (getPairStats_short l None Hl).
    - now rewrite (getPairStats_short l (Some acc) Hl). }
  intros segs p.
  assert (Hc : forall s, count_of (getPairStats s None) p = occurrences s p).
  { intros s. unfold count_of. rewrite get_getPairStats_fresh. simpl.
    destruct (Z.eqb_spec (occurrences s p) 0); congruence. }
  assert (Hm : forall s, PyDict.mem (getPairStats s None) p = true <-> 0 < occurrences s p).
  { intros s. unfold PyDict.mem. rewrite get_getPairStats_fresh. simpl.
    pose proof (occurrences_nonneg s p).
    destruct (Z.eqb_spec (occurrences s p) 0); split; intros; try lia; auto; discriminate. }
  pose proof (sumZ_occ_nonneg segs p) as Hs.
  split.
  - unfold count_of. rewrite get_fold_segments. simpl.
    rewrite (map_ext _ _ Hc).
    destruct (Z.eqb_spec (sumZ (map (fun s => occurrences s p) segs)) 0); congruence.
  - unfold PyDict.mem at 1. rewrite get_fold_segments. simpl.
    destruct (Z.eqb_spec (sumZ (map (fun s => occurrences s p) segs)) 0) as [E|E].
    + split; [discriminate|]. intros (s & Hin & Hs'). apply Hm in Hs'. exfalso.
      clear Hs. induction segs as [|s' segs IH]; [contradiction|]. simpl in E.
      pose proof (occurrences_nonneg s' p). pose proof (sumZ_occ_nonneg segs p).
      destruct Hin as [->|Hin]; [lia | apply IH; auto; lia].
    + split; [intros _ | reflexivity].
      clear Hs. induction segs as [|s' segs IH]; [simpl in E; lia|]. simpl in E.
      destruct (Z.eqb_spec (occurrences s' p) 0) as [E0|E0].
      * destruct IH as (s & Hin & Hs'); [lia|]. exists s; split; [now right | auto].
      * exists s'. split; [now left|]. apply Hm. pose proof (occurrences_nonneg s' p). lia.
Qed.

(* ------------------------------------------------------------------ *)
(** ** [min] / [max] and the encode loop *)

Section Best.
Context {A R : Type} (better : R -> R -> bool) (key : A -> R).
Hypothesis better_irrefl : forall r, better r r = false.
Hypothesis better_trans :
  forall a b c, better a b = true -> better b c = true -> better a c = true.

Let pick (best y : A) : A := if better (key y) (key best) then y else best.

Lemma fold_best_spec (xs : list A) (x : A) :
  In (fold_left pick xs x) (x :: xs) /\
  (fold_left pick xs x = x \/ better (key (fold_left pick xs x)) (key x) = true) /\
  forall z, In z (x :: xs) -> better (key z) (key (fold_left pick xs x)) = false.
Proof.
  revert x. induction xs as [|y xs IH]; intros x.
  - simpl. split; [now left|]. split; [now left|].
    intros z [<-|[]]. apply better_irrefl.
  - cbn [fold_left]. remember (pick x y) as x' eqn:Hx'. unfold pick in Hx'.
    destruct (better (key y) (key x)) eqn:E; subst x'.
    + destruct (IH y) as (Hin & Hle & Hmin).
      set (b := fold_left pick xs y) in *.
      assert (Hbx : better (key b) (key x) = true).
      { destruct Hle as [->|Hb]; [exact E | now apply better_trans with (key y)]. }
      split; [now right|]. split; [now right|].
      intros z [<-|Hz]; [|now apply Hmin].
      destruct (better (key x) (key b)) eqn:E2; [|reflexivity].
      assert (Hxx : better (key x) (key x) = true)
        by (apply better_trans with (key b); assumption).
      rewrite better_irrefl in Hxx. discriminate.
    + destruct (IH x) as (Hin & Hle & Hmin).
      set (b := fold_left pick xs x) in *.
      split; [destruct Hin as [Hb|Hb]; [now left | right; now right]|].
      split; [exact Hle|].
      intros z [<-|[<-|Hz]].
      * apply Hmin. now left.
      * destruct (better (key y) (key b)) eqn:E2; [|reflexivity].
        assert (Hyx : better (key y) (key x) = true).
        { destruct Hle as [Hb|Hb]; [now rewrite <- Hb | now apply better_trans with (key b)]. }
        congruence.
      * apply Hmin. now right.
Qed.

Lemma py_best_spec (l : list A) :
  match py_best better key l with
  | Ok b => In b l /\ forall z, In z l -> better (key z) (key b) = false
  | Raise e => l = [] /\ e = ValueError
  end.
Proof.
  destruct l as [|x xs]; simpl; [auto|].
  destruct (fold_best_spec xs x) as (Hin & _ & Hmin). auto.
Qed.

End Best.

Lemma rank_ltb_irrefl (r : rank) : rank_ltb r r = false.
Proof. destruct r; simpl; auto using Z.ltb_irrefl. Qed.

Lemma rank_ltb_trans (a b c : rank) :
  rank_ltb a b = true -> rank_ltb b c = true -> rank_ltb a c = true.
Proof.
  destruct a, b, c; simpl; auto; try discriminate.
  rewrite !Z.ltb_lt. lia.
Qed.

Lemma adjacent_keys (s : list Z) (p : pair) :
  In p (PyDict.keys (getPairStats s None)) <-> In p (adjacent s).
Proof.
  rewrite <- mem_keys. unfold PyDict.mem.
  rewrite get_getPairStats_fresh, occurrences_tally, <- tally_pos_In. simpl.
  pose proof (tally_nonneg (adjacent s) p).
  destruct (Z.eqb_spec (tally (adjacent s) p) 0); split; intros; try lia; auto; discriminate.
Qed.

Lemma applyMerge_shorter (s : list Z) (p : pair) (idx : Z) :
  In p (adjacent s) -> (length (applyMerge s p idx) < length s)%nat.
Proof.
  induction s as [| a | a b r IHr IHbr] using list_ind2; try contradiction.
  change (adjacent (a :: b :: r)) with ((a, b) :: adjacent (b :: r)).
  cbn [applyMerge].
  destruct ((a =? fst p) && (b =? snd p)) eqn:E.
  - intros _. pose proof (applyMerge_length r p idx). simpl. lia.
  - intros [<-|Hin].
    + simpl in E. now rewrite !Z.eqb_refl in E.
    + specialize (IHbr Hin). simpl in *. lia.
Qed.

(** What [min] selects in one round of the encode loop. *)
Lemma select_spec (merges : dict pair Z) (s : list Z) :
  (2 <= length s)%nat ->
  exists p,
    py_min rank_ltb (rank_of merges) (PyDict.keys (getPairStats s None)) = Ok p /\
    In p (adjacent s) /\
    match PyDict.get merges p with
    | Some idx => least_rank merges s p idx
    | None => forall q, In q (adjacent s) -> PyDict.get merges q = None
    end.
Proof.
  intros Hlen. unfold py_min.
  pose proof (py_best_spec rank_ltb (rank_of merges) rank_ltb_irrefl rank_ltb_trans
                (PyDict.keys (getPairStats s None))) as Hb.
  destruct (py_best _ _ _) as [p|e].
  - destruct Hb as [Hin Hmin]. exists p. split; [reflexivity|].
    apply adjacent_keys in Hin. split; [exact Hin|].
    destruct (PyDict.get merges p) as [idx|] eqn:Hp.
    + split; [exact Hin|]. split; [exact Hp|].
      intros q idx' Hq Hq'. apply adjacent_keys in Hq. specialize (Hmin q Hq).
      unfold rank_of in Hmin. rewrite Hp, Hq' in Hmin. simpl in Hmin.
      apply Z.ltb_ge in Hmin. exact Hmin.
    + intros q Hq. apply adjacent_keys in Hq. specialize (Hmin q Hq).
      unfold rank_of in Hmin. rewrite Hp in Hmin.
      destruct (PyDict.get merges q); [discriminate | reflexivity].
  - destruct Hb as [Hnil _]. exfalso.
    destruct s as [|a [|b r]]; simpl in Hlen; try lia.
    assert (Hin : In (a, b) (PyDict.keys (getPairStats (a :: b :: r) None)))
      by (apply adjacent_keys; now left).
    rewrite Hnil in Hin. contradiction.
Qed.

Lemma encode_loop_fuel (merges : dict pair Z) (f1 : nat) :
  forall (f2 : nat) (s : list Z),
    (length s <= f1)%nat -> (length s <= f2)%nat ->
    encode_loop f1 merges s = encode_loop f2 merges s.
Proof.
  induction f1 as [|f1 IH]; intros f2 s H1 H2.
  - destruct s; [|simpl in H1; lia]. destruct f2; reflexivity.
  - destruct f2 as [|f2].
    + destruct s; [|simpl in H2; lia]. reflexivity.
    + cbn [encode_loop].
      destruct (Nat.leb_spec 2 (length s)) as [Hlen|Hlen]; [|reflexivity].
      destruct (select_spec merges s Hlen) as (p & -> & Hin & _). cbn [bind].
      destruct (negb (PyDict.mem merges p)); [reflexivity|].
      destruct (PyDict.getitem merges p) as [idx|e]; [|reflexivity]. cbn [bind].
      pose proof (applyMerge_shorter s p idx Hin) as Hs.
      rewrite <- merge_applyMerge in Hs.
      apply IH; lia.
Qed.

Lemma bpe_unfold (merges : dict pair Z) (s : list Z) :
  bpe merges s = encode_round merges s (bpe merges).
Proof.
  unfold bpe, encode_round.
  destruct s as [|a s']; [reflexivity|].
  cbn [length encode_loop].
  destruct (Nat.leb_spec 2 (S (length s'))) as [Hlen|Hlen]; [|reflexivity].
  destruct (select_spec merges (a :: s') Hlen) as (p & -> & Hin & _). cbn [bind].
  destruct (negb (PyDict.mem merges p)); [reflexivity|].
  destruct (PyDict.getitem merges p) as [idx|e]; [|reflexivity]. cbn [bind].
  pose proof (applyMerge_shorter (a :: s') p idx Hin) as Hs.
  rewrite <- merge_applyMerge in Hs. cbn [length] in Hs.
  apply encode_loop_fuel; lia.
Qed.

Lemma bpe_total (merges : dict pair Z) (s : list Z) : exists out, bpe merges s = Ok out.
Proof.
  remember (length s) as n eqn:Hn. revert s Hn.
  induction n as [n IH] using lt_wf_ind. intros s ->.
  rewrite bpe_unfold. unfold encode_round.
  destruct (Nat.leb_spec 2 (length s)) as [Hlen|Hlen]; [|eauto].
  destruct (select_spec merges s Hlen) as (p & -> & Hin & _). cbn [bind].
  unfold PyDict.mem, PyDict.getitem.
  destruct (PyDict.get merges p) as [idx|]; cbn [negb bind]; [|eauto].
  apply (IH (length (merge s p idx))); [|reflexivity].
  rewrite merge_applyMerge. now apply applyMerge_shorter.
Qed.

(** C3. [BasicTokenizer.encode] turns the text into its UTF-8 byte values and
    runs the greedy loop on them; the loop always returns; a sequence shorter
    than two elements, or one none of whose adjacent pairs is in the merge
    table, is returned as it is; otherwise the pair merged is one present in
    the sequence whose id in the merge table is least among the pairs
    present, and the loop goes on with the merged sequence. *)
Theorem encode_greedy_by_rank (tk : tokenizer) (text : str) (byte_ids : list Z) :
  Utf8.encode text = Ok byte_ids ->
  BasicTokenizer.encode tk text = bpe (merge_dict tk) byte_ids /\
  (exists out, bpe (merge_dict tk) byte_ids = Ok out) /\
  forall s : list Z,
    ((length s < 2)%nat -> bpe (merge_dict tk) s = Ok s) /\
    ((2 <= length s)%nat ->
     (forall q, In q (adjacent s) -> PyDict.get (merge_dict tk) q = None) ->
     bpe (merge_dict tk) s = Ok s) /\
    ((2 <= length s)%nat ->
     (exists q, In q (adjacent s) /\ PyDict.get (merge_dict tk) q <> None) ->
     exists p idx,
       least_rank (merge_dict tk) s p idx /\
       bpe (merge_dict tk) s = bpe (merge_dict tk) (merge s p idx)).
Proof.
  intros Henc. split; [unfold BasicTokenizer.encode; now rewrite Henc|].
  split; [apply bpe_total|].
  intros s. repeat split.
  - intros Hs. rewrite bpe_unfold. unfold encode_round.
    destruct (Nat.leb_spec 2 (length s)); [lia | reflexivity].
  - intros Hs Hnone. rewrite bpe_unfold. unfold encode_round.
    destruct (Nat.leb_spec 2 (length s)); [|reflexivity].
    destruct (select_spec (merge_dict tk) s Hs) as (p & -> & Hin & _). cbn [bind].
    unfold PyDict.mem. now rewrite (Hnone p Hin).
  - intros Hs (q & Hq & Hsome).
    destruct (select_spec (merge_dict tk) s Hs) as (p & Hsel & Hin & Hp).
    destruct (PyDict.get (merge_dict tk) p) as [idx|] eqn:Hg.
    + exists p, idx. split; [exact Hp|].
      rewrite bpe_unfold at 1. unfold encode_round.
      destruct (Nat.leb_spec 2 (length s)); [|lia].
      rewrite Hsel. cbn [bind]. unfold PyDict.mem, PyDict.getitem. now rewrite Hg.
    + exfalso. apply Hsome. now apply Hp.
Qed.

Lemma encode_greedy_by_rank_witness :
  BasicTokenizer.encode (with_merge init (97, 98) 256) [97; 98; 99]
  = bpe [((97, 98), 256)] [97; 98; 99].
Proof.
  exact (proj1 (encode_greedy_by_rank (with_merge init (97, 98) 256)
                  [97; 98; 99] [97; 98; 99] eq_refl)).
Defined.

(* ------------------------------------------------------------------ *)
(** ** The codec: decoding an encoded text gives the text back *)

Ltac decide_cmp :=
  repeat match goal with
  | |- context [?a <? ?b] => destruct (Z.ltb_spec a b); try lia
  | |- context [?a <=? ?b] => destruct (Z.leb_spec a b); try lia
  | |- context [?a =? ?b] => destruct (Z.eqb_spec a b); try lia
  end.

Lemma decode_encode_char (c : Z) :
  Utf8.scalar c ->
  exists bs, Utf8.encode_char c = Ok bs /\
             bs <> [] /\
             Forall (fun b => 0 <= b < 256) bs /\
             forall rest, Utf8.decode_replace (bs ++ rest) = c :: Utf8.decode_replace rest.
Proof.
  intros [Hr Hs]. unfold Utf8.encode_char. rewrite Hs.
  unfold Utf8.is_surrogate in Hs.
  pose proof (Z.div_mod c 64 ltac:(lia)) as E0.
  pose proof (Z.mod_pos_bound c 64 ltac:(lia)) as B0.
  pose proof (Z.div_mod (c / 64) 64 ltac:(lia)) as E1.
  pose proof (Z.mod_pos_bound (c / 64) 64 ltac:(lia)) as B1.
  pose proof (Z.div_mod (c / 64 / 64) 64 ltac:(lia)) as E2.
  pose proof (Z.mod_pos_bound (c / 64 / 64) 64 ltac:(lia)) as B2.
  replace (c / 4096) with (c / 64 / 64) by (rewrite Z.div_div by lia; reflexivity).
  replace (c / 262144) with (c / 64 / 64 / 64) by (rewrite !Z.div_div by lia; reflexivity).
  set (r0 := c mod 64) in *. set (q1 := c / 64) in *.
  set (r1 := q1 mod 64) in *. set (q2 := q1 / 64) in *.
  set (r2 := q2 mod 64) in *. set (q3 := q2 / 64) in *.
  destruct (Z.ltb_spec c 0); [lia|].
  destruct (Z.ltb_spec 1114111 c); [lia|]. cbn [orb].
  destruct (Z.ltb_spec c 128).
  { eexists; split; [reflexivity|]. split; [discriminate|].
    split; [repeat constructor; lia|].
    intros rest. cbn [app Utf8.decode_replace]. decide_cmp. reflexivity. }
  destruct (Z.ltb_spec c 2048).
  { eexists; split; [reflexivity|]. split; [discriminate|].
    split; [repeat constructor; lia|].
    intros rest. cbn [app].
    remember ((128 + r0) :: rest) as t eqn:Ht.
    cbn [Utf8.decode_replace]. decide_cmp. subst t. cbv beta iota.
    unfold Utf8.is_continuation, Utf8.between. decide_cmp. cbn [andb].
    f_equal. lia. }
  destruct (Z.ltb_spec c 65536).
  { eexists; split; [reflexivity|]. split; [discriminate|].
    split; [repeat constructor; lia|].
    intros rest. cbn [app].
    remember ((128 + r1) :: (128 + r0) :: rest) as t eqn:Ht.
    cbn [Utf8.decode_replace]. decide_cmp. subst t. cbv beta iota.
    assert (Hsec : Utf8.second_ok (224 + q2) (128 + r1) = true).
    { unfold Utf8.second_ok, Utf8.is_continuation, Utf8.between.
      apply andb_false_iff in Hs. rewrite Z.leb_gt in Hs. rewrite Z.leb_gt in Hs.
      decide_cmp; reflexivity. }
    rewrite Hsec.
    unfold Utf8.is_continuation, Utf8.between. decide_cmp. cbn [andb].
    f_equal. lia. }
  eexists; split; [reflexivity|]. split; [discriminate|].
  split; [repeat constructor; lia|].
  intros rest. cbn [app].
  remember ((128 + r2) :: (128 + r1) :: (128 + r0) :: rest) as t eqn:Ht.
  cbn [Utf8.decode_replace]. decide_cmp. subst t. cbv beta iota.
  assert (Hsec : Utf8.second_ok (240 + q3) (128 + r2) = true).
  { unfold Utf8.second_ok, Utf8.is_continuation, Utf8.between.
    decide_cmp; reflexivity. }
  rewrite Hsec.
  unfold Utf8.is_continuation, Utf8.between. decide_cmp. cbn [andb].
  f_equal. lia.
Qed.

Lemma utf8_encode_ok (text : str) :
  Utf8.well_formed text ->
  exists bs, Utf8.encode text = Ok bs /\
             Forall (fun b => 0 <= b < 256) bs /\
             Utf8.decode_replace bs = text.
Proof.
  induction 1 as [|c cs Hc _ (bs & Hbs & Hr & Hd)].
  - exists []. repeat split; constructor.
  - destruct (decode_encode_char c Hc) as (b & Hb & _ & Hrb & Hdb).
    exists (b ++ bs). cbn [Utf8.encode]. rewrite Hb, Hbs. cbn [bind].
    split; [reflexivity|]. split; [now apply Forall_app|].
    now rewrite Hdb, Hd.
Qed.

(* ------------------------------------------------------------------ *)
(** ** Training *)

Lemma In_range (n x : Z) : In x (range n) <-> 0 <= x < n.
Proof.
  unfold range. rewrite in_map_iff. split.
  - intros (k & <- & Hk). apply in_seq in Hk. lia.
  - intros Hx. exists (Z.to_nat x). split; [lia|]. apply in_seq. lia.
Qed.

Lemma get_tabulate (f : Z -> bytes) (l : list Z) (x : Z) :
  PyDict.get (map (fun i => (i, f i)) l) x
  = if existsb (Z.eqb x) l then Some (f x) else None.
Proof.
  induction l as [|a l IH]; [reflexivity|]. cbn [map PyDict.get existsb keqb EqKey_Z].
  destruct (Z.eqb_spec x a) as [->|Hn]; [reflexivity | exact IH].
Qed.

Lemma get_base_vocab (x : Z) :
  PyDict.get base_vocab x = if (0 <=? x) && (x <? 256) then Some [x] else None.
Proof.
  unfold base_vocab. rewrite get_tabulate.
  destruct (existsb (Z.eqb x) (range 256)) eqn:E.
  - apply existsb_exists in E. destruct E as (y & Hy & Hxy).
    apply Z.eqb_eq in Hxy. subst y. apply In_range in Hy.
    destruct (Z.leb_spec 0 x), (Z.ltb_spec x 256); try lia. reflexivity.
  - destruct (Z.leb_spec 0 x), (Z.ltb_spec x 256); try reflexivity.
    assert (Hex : existsb (Z.eqb x) (range 256) = true).
    { apply existsb_exists. exists x. split; [apply In_range; lia | apply Z.eqb_refl]. }
    congruence.
Qed.

Lemma applyMerge_In (s : list Z) (p : pair) (idx x : Z) :
  In x (applyMerge s p idx) -> x = idx \/ In x s.
Proof.
  induction s as [| a | a b r IHr IHbr] using list_ind2; cbn [applyMerge]; auto.
  destruct ((a =? fst p) && (b =? snd p)).
  - intros [<-|Hx]; [now left|]. destruct (IHr Hx); [now left | right; right; now right].
  - intros [<-|Hx]; [right; now left|]. destruct (IHbr Hx); [now left | right; now right].
Qed.

Lemma applyMerge_head (b : Z) (r : list Z) (p : pair) (idx : Z) :
  exists t, applyMerge (b :: r) p idx = b :: t \/ applyMerge (b :: r) p idx = idx :: t.
Proof.
  destruct r as [|c r]; cbn [applyMerge]; [eauto|].
  destruct ((b =? fst p) && (c =? snd p)); eauto.
Qed.

Lemma adjacent_cons2 (a b : Z) (t : list Z) :
  adjacent (a :: b :: t) = (a, b) :: adjacent (b :: t).
Proof. reflexivity. Qed.

Lemma adjacent_tail (a : Z) (s : list Z) (q : pair) :
  In q (adjacent s) -> In q (adjacent (a :: s)).
Proof. destruct s as [|b t]; [contradiction|]. rewrite adjacent_cons2. now right. Qed.

Lemma adjacent_In (s : list Z) (q : pair) :
  In q (adjacent s) -> In (fst q) s /\ In (snd q) s.
Proof.
  induction s as [| a | a b r _ IH] using list_ind2; try contradiction.
  rewrite adjacent_cons2. intros [<-|Hq]; simpl.
  - auto.
  - destruct (IH Hq). simpl in *. tauto.
Qed.

Lemma applyMerge_cons2 (a b : Z) (r : list Z) (p : pair) (idx : Z) :
  applyMerge (a :: b :: r) p idx
  = if (a =? fst p) && (b =? snd p)
    then idx :: applyMerge r p idx
    else a :: applyMerge (b :: r) p idx.
Proof. reflexivity. Qed.

(** Pairs of the merged sequence either contain the new id or were already
    there, and then they are not the merged pair. *)
Lemma adjacent_applyMerge (s : list Z) (p : pair) (idx : Z) (q : pair) :
  In q (adjacent (applyMerge s p idx)) ->
  (fst q = idx \/ snd q = idx) \/ (In q (adjacent s) /\ q <> p).
Proof.
  induction s as [| a | a b r IHr IHbr] using list_ind2; try contradiction.
  rewrite applyMerge_cons2.
  destruct ((a =? fst p) && (b =? snd p)) eqn:E.
  - destruct (applyMerge r p idx) as [|x t] eqn:Er; [contradiction|].
    rewrite adjacent_cons2. intros [<-|Hq]; [left; now left|].
    destruct (IHr Hq) as [Hl|[Hin Hne]]; [now left|].
    right. split; [|exact Hne]. now do 2 apply adjacent_tail.
  - destruct (applyMerge_head b r p idx) as (t & [Ht|Ht]); rewrite Ht in *;
      rewrite adjacent_cons2; (intros [<-|Hq]; [|
        destruct (IHbr Hq) as [Hl|[Hin Hne]]; [now left|];
        right; split; [now apply adjacent_tail | exact Hne]]).
    + right. split; [now left|]. intros <-. simpl in E. now rewrite !Z.eqb_refl in E.
    + left. now right.
Qed.

Lemma extend_vocab_app (xs ys : list (pair * Z)) (v : dict Z bytes) :
  extend_vocab (xs ++ ys) v = (v' <- extend_vocab xs v ;; extend_vocab ys v').
Proof.
  revert v; induction xs as [|[k val] xs IH]; intros v; [reflexivity|].
  cbn [app extend_vocab].
  destruct (PyDict.getitem v (fst k)) as [l|e]; [|reflexivity].
  destruct (PyDict.getitem v (snd k)) as [r|e]; [|reflexivity].
  cbn [bind]. apply IH.
Qed.

Lemma gtb_irrefl (r : Z) : (fun a b => b <? a) r r = false.
Proof. apply Z.ltb_irrefl. Qed.

Lemma gtb_trans (a b c : Z) :
  (fun a b => b <? a) a b = true -> (fun a b => b <? a) b c = true ->
  (fun a b => b <? a) a c = true.
Proof. cbv beta. rewrite !Z.ltb_lt. lia. Qed.

Lemma segments_key (segs : list (list Z)) (p : pair) :
  In p (PyDict.keys (AdvanceTokenizer.all_pair_stats segs))
  <-> exists s, In s segs /\ In p (adjacent s).
Proof.
  rewrite <- mem_keys. unfold PyDict.mem, AdvanceTokenizer.all_pair_stats.
  rewrite get_fold_segments. cbn [PyDict.get PyDict.empty add_count].
  induction segs as [|s segs IH]; cbn [map sumZ fold_right].
  - split; [discriminate | intros (s & [] & _)].
  - pose proof (occurrences_nonneg s p) as H0.
    pose proof (sumZ_occ_nonneg segs p) as H1. unfold sumZ in *.
    set (rest := fold_right Z.add 0 (map (fun s0 => occurrences s0 p) segs)) in *.
    destruct (Z.eqb_spec (occurrences s p + rest) 0) as [E|E].
    + split; [discriminate|]. intros (s' & [<-|Hin] & Hp).
      * rewrite occurrences_tally in *. apply tally_pos_In in Hp. lia.
      * assert (Hr : rest = 0) by lia. rewrite Hr in IH. cbn in IH.
        destruct IH as [_ IH]. specialize (IH (ex_intro _ s' (conj Hin Hp))). discriminate.
    + split; [intros _ | reflexivity].
      destruct (Z.eqb_spec (occurrences s p) 0) as [E0|E0].
      * destruct (Z.eqb_spec rest 0) as [Er|Er]; [lia|].
        destruct IH as [IH _]. destruct IH as (s' & Hin & Hp); [reflexivity|].
        exists s'. split; [now right | exact Hp].
      * exists s. split; [now left|]. apply tally_pos_In. rewrite <- occurrences_tally. lia.
Qed.

(** What [max] selects in a training round: some pair of some sequence, or
    [ValueError] when no sequence has two elements. *)
Lemma max_pair_spec (segs : list (list Z)) :
  let pairStats := AdvanceTokenizer.all_pair_stats segs in
  match py_max Z.ltb (count_of pairStats) (PyDict.keys pairStats) with
  | Ok p => exists s, In s segs /\ In p (adjacent s)
  | Raise e => e = ValueError /\ forall s, In s segs -> (length s < 2)%nat
  end.
Proof.
  cbn zeta. unfold py_max.
  pose proof (py_best_spec (fun a b => b <? a)
                (count_of (AdvanceTokenizer.all_pair_stats segs)) gtb_irrefl gtb_trans
                (PyDict.keys (AdvanceTokenizer.all_pair_stats segs))) as Hb.
  destruct (py_best _ _ _) as [p|e].
  - destruct Hb as [Hin _]. now apply segments_key.
  - destruct Hb as [Hnil ->]. split; [reflexivity|].
    intros s Hs. destruct s as [|a [|b r]]; simpl; try lia.
    assert (Hin : In (a, b) (PyDict.keys (AdvanceTokenizer.all_pair_stats segs))).
    { apply segments_key. exists (a :: b :: r). split; [exact Hs | now left]. }
    rewrite Hnil in Hin. contradiction.
Qed.

Lemma flat_train_loop (idxs : list Z) (byte_ids : list Z) (tk : tokenizer) :
  BasicTokenizer.train_loop idxs byte_ids tk
  = AdvanceTokenizer.train_loop idxs [byte_ids] tk.
Proof.
  revert byte_ids tk. induction idxs as [|i idxs IH]; intros byte_ids tk; [reflexivity|].
  cbn [BasicTokenizer.train_loop AdvanceTokenizer.train_loop].
  change (AdvanceTokenizer.all_pair_stats [byte_ids]) with (getPairStats byte_ids None).
  destruct (py_max _ _ _) as [p|e]; [|reflexivity].
  destruct (learn tk p (256 + i)) as [tk' [[]|e]]; [|reflexivity].
  apply IH.
Qed.

Lemma init_training (segs : list (list Z)) :
  (forall s x, In s segs -> In x s -> 0 <= x < 256) ->
  training 0 segs init.
Proof.
  intros Hb. split.
  - split.
    + intros b Hr. cbn [vocab_dict init]. rewrite get_base_vocab.
      destruct (Z.leb_spec 0 b), (Z.ltb_spec b 256); try lia. reflexivity.
    + intros p idx Hg. discriminate Hg.
  - reflexivity.
  - reflexivity.
  - intros x. cbn [vocab_dict init]. rewrite get_base_vocab.
    destruct (Z.leb_spec 0 x), (Z.ltb_spec x 256); cbn [andb];
      split; intros; try lia; try congruence; discriminate.
  - intros s x Hs Hx. specialize (Hb s x Hs Hx). lia.
  - intros p idx [].
  - reflexivity.
  - constructor.
Qed.

Lemma get_append_None (md : dict pair Z) (p q : pair) (idx : Z) :
  PyDict.get md q = None -> q <> p -> PyDict.get (PyDict.set md p idx) q = None.
Proof. intros Hq Hne. rewrite get_set_neq; auto. Qed.

Lemma learn_step (n : nat) (seqs : list (list Z)) (tk : tokenizer) (p : pair) :
  training n seqs tk ->
  (exists s, In s seqs /\ In p (adjacent s)) ->
  exists tk',
    learn tk p (256 + Z.of_nat n) = (tk', Ok tt) /\
    merge_dict tk' = merge_dict tk ++ [(p, 256 + Z.of_nat n)] /\
    training (S n) (map (fun s => merge s p (256 + Z.of_nat n)) seqs) tk'.
Proof.
  intros [[Hbase Hrule] Hids Hbuild Hdom Hsym Hparts Hfresh Hnodup] (s & Hs & Hp).
  set (idx := 256 + Z.of_nat n) in *.
  pose proof (Hfresh s p Hs Hp) as Hnew.
  destruct (adjacent_In s p Hp) as [Hp0 Hp1].
  pose proof (Hsym s _ Hs Hp0) as B0. pose proof (Hsym s _ Hs Hp1) as B1.
  destruct (PyDict.get (vocab_dict tk) (fst p)) as [l|] eqn:El;
    [|apply Hdom in B0; congruence].
  destruct (PyDict.get (vocab_dict tk) (snd p)) as [r|] eqn:Er;
    [|apply Hdom in B1; congruence].
  assert (Hmd : PyDict.set (merge_dict tk) p idx = merge_dict tk ++ [(p, idx)])
    by now apply set_absent.
  exists (with_vocab (with_merge tk p idx) idx (l ++ r)).
  split; [|split].
  - unfold learn, PyDict.getitem. cbn [vocab_dict with_merge]. now rewrite El, Er.
  - exact Hmd.
  - assert (Hold : forall q idx', PyDict.get (merge_dict tk) q = Some idx' ->
                     fst q <> idx /\ snd q <> idx /\ idx' <> idx).
    { intros q idx' Hq. apply get_In in Hq. apply Hparts in Hq. lia. }
    split.
    + split; cbn [vocab_dict merge_dict with_vocab with_merge].
      * intros b Hb. rewrite get_set_neq by lia. now apply Hbase.
      * intros q idx' Hq. rewrite get_set in Hq.
        destruct (keqb_spec p q) as [<-|Hne].
        -- injection Hq as <-. exists l, r.
           rewrite !get_set_neq by lia. rewrite get_set_eq. auto.
        -- destruct (Hold q idx' Hq) as (H0 & H1 & H2).
           destruct (Hrule q idx' Hq) as (l' & r' & G0 & G1 & G2).
           exists l', r'. rewrite !get_set_neq by congruence. auto.
    + unfold rule_ids in *. cbn [merge_dict with_vocab with_merge].
      rewrite Hmd, map_app, Hids, seq_S, map_app. reflexivity.
    + unfold _build_vocab_dict in *. cbn [merge_dict vocab_dict with_vocab with_merge].
      rewrite Hmd, extend_vocab_app, Hbuild. cbn [bind extend_vocab fst snd].
      unfold PyDict.getitem. now rewrite El, Er.
    + intros x. cbn [vocab_dict with_vocab with_merge]. rewrite get_set.
      destruct (keqb_spec idx x) as [<-|Hne].
      * split; [discriminate | lia].
      * rewrite <- Hdom. lia.
    + intros s' x Hs' Hx. apply in_map_iff in Hs'. destruct Hs' as (s0 & <- & Hs0).
      rewrite merge_applyMerge in Hx. apply applyMerge_In in Hx.
      destruct Hx as [->|Hx]; [lia|]. specialize (Hsym s0 x Hs0 Hx). lia.
    + cbn [merge_dict with_vocab with_merge]. rewrite Hmd.
      intros q idx' Hq. apply in_app_or in Hq. destruct Hq as [Hq|[[= <- <-]|[]]].
      * apply Hparts in Hq. lia.
      * lia.
    + cbn [merge_dict with_vocab with_merge].
      intros s' q Hs' Hq. apply in_map_iff in Hs'. destruct Hs' as (s0 & <- & Hs0).
      rewrite merge_applyMerge in Hq. apply adjacent_applyMerge in Hq.
      destruct Hq as [Hq|[Hq Hne]].
      * apply get_append_None.
        -- destruct (PyDict.get (merge_dict tk) q) as [idx'|] eqn:Eq; [|reflexivity].
           apply get_In in Eq. apply Hparts in Eq. lia.
        -- intros ->. lia.
      * apply get_append_None; [now apply (Hfresh s0) | exact Hne].
    + cbn [merge_dict with_vocab with_merge]. rewrite Hmd.
      unfold PyDict.keys in *. rewrite map_app. cbn [map fst].
      apply NoDup_app; [exact Hnodup | repeat constructor; intros [] |].
      intros q Hq [<-|[]]. apply get_None_keys in Hnew. now apply Hnew.
Qed.

Lemma train_loop_training (m : nat) :
  forall (n : nat) (seqs : list (list Z)) (tk : tokenizer),
    training n seqs tk ->
    exists n' seqs',
      training n' seqs' (fst (AdvanceTokenizer.train_loop (map Z.of_nat (seq n m)) seqs tk)) /\
      match snd (AdvanceTokenizer.train_loop (map Z.of_nat (seq n m)) seqs tk) with
      | Ok _ => n' = (n + m)%nat
      | Raise e =>
          e = ValueError /\ (n' < n + m)%nat /\
          forall s, In s seqs' -> (length s < 2)%nat
      end.
Proof.
  induction m as [|m IH]; intros n seqs tk Htr.
  - exists n, seqs. cbn. split; [exact Htr | lia].
  - cbn [seq map AdvanceTokenizer.train_loop].
    pose proof (max_pair_spec seqs) as Hmax. cbn zeta in Hmax.
    destruct (py_max _ _ _) as [p|e].
    + destruct (learn_step n seqs tk p Htr Hmax) as (tk' & -> & _ & Htr').
      destruct (IH (S n) _ tk' Htr') as (n' & seqs' & Hinv & Hout).
      exists n', seqs'. split; [exact Hinv|].
      destruct (snd _) as [[]|e]; [lia|]. destruct Hout as (He & Hlt & Hshort).
      split; [exact He|]. split; [lia | exact Hshort].
    + destruct Hmax as [-> Hshort]. exists n, seqs. cbn [fst snd].
      split; [exact Htr|]. split; [reflexivity|]. split; [lia | exact Hshort].
Qed.

Lemma encode_char_scalar (c : Z) (b : bytes) :
  Utf8.encode_char c = Ok b -> Utf8.scalar c.
Proof.
  unfold Utf8.encode_char, Utf8.scalar.
  destruct (Z.ltb_spec c 0); [discriminate|].
  destruct (Z.ltb_spec 1114111 c); [discriminate|]. cbn [orb].
  destruct (Utf8.is_surrogate c); [discriminate|]. intros _. split; [lia | reflexivity].
Qed.

Lemma utf8_encode_inv (text : str) (bs : bytes) :
  Utf8.encode text = Ok bs ->
  Utf8.well_formed text /\ Forall (fun b => 0 <= b < 256) bs.
Proof.
  revert bs. induction text as [|c cs IH]; intros bs; cbn [Utf8.encode].
  - intros [= <-]. split; constructor.
  - destruct (Utf8.encode_char c) as [b|e] eqn:Ec; [|discriminate].
    destruct (Utf8.encode cs) as [bs'|e] eqn:Ecs; [|discriminate].
    cbn [bind]. intros [= <-].
    pose proof (encode_char_scalar c b Ec) as Hc.
    destruct (IH bs' eq_refl) as [Hwf Hr].
    split; [now constructor|].
    destruct (decode_encode_char c Hc) as (b' & Hb' & _ & Hrb & _).
    rewrite Ec in Hb'. injection Hb' as <-. now apply Forall_app.
Qed.

Lemma mapM_encode_inv (segs : list str) (bytes_list : list bytes) :
  mapM Utf8.encode segs = Ok bytes_list ->
  forall s x, In s bytes_list -> In x s -> 0 <= x < 256.
Proof.
  revert bytes_list. induction segs as [|t segs IH]; intros bytes_list; cbn [mapM].
  - intros [= <-] s x [].
  - destruct (Utf8.encode t) as [b|e] eqn:Et; [|discriminate].
    destruct (mapM Utf8.encode segs) as [bl|e]; [|discriminate].
    cbn [bind]. intros [= <-] s x [<-|Hs] Hx.
    + apply utf8_encode_inv in Et. destruct Et as [_ Hr].
      rewrite Forall_forall in Hr. now apply Hr.
    + now apply (IH bl eq_refl s).
Qed.

Lemma train_loop_from_init (segs : list (list Z)) (num : Z) :
  (forall s x, In s segs -> In x s -> 0 <= x < 256) ->
  0 <= num ->
  exists n seqs',
    training n seqs' (fst (AdvanceTokenizer.train_loop (range num) segs init)) /\
    match snd (AdvanceTokenizer.train_loop (range num) segs init) with
    | Ok _ => Z.of_nat n = num
    | Raise e =>
        e = ValueError /\ Z.of_nat n < num /\
        forall s, In s seqs' -> (length s < 2)%nat
    end.
Proof.
  intros Hb Hnum.
  destruct (train_loop_training (Z.to_nat num) 0 segs init (init_training segs Hb))
    as (n & seqs' & Htr & Hout).
  exists n, seqs'. unfold range. split; [exact Htr|].
  destruct (snd _) as [[]|e]; [lia|].
  destruct Hout as (He & Hlt & Hshort). split; [exact He|]. split; [lia | exact Hshort].
Qed.

Lemma utf8_encode_error (text : str) (e : exn) :
  Utf8.encode text = Raise e -> e = UnicodeEncodeError /\ ~ Utf8.well_formed text.
Proof.
  intros Et. split.
  - revert e Et. induction text as [|c cs IH]; intros e; cbn [Utf8.encode].
    + discriminate.
    + unfold Utf8.encode_char at 1.
      destruct (_ || _ || _); cbn [bind]; [congruence|].
      repeat (match goal with |- context [if ?b then _ else _] => destruct b end;
              cbn [bind]);
        (destruct (Utf8.encode cs) as [bs|e']; cbn [bind]; [discriminate|];
         intros [= <-]; now apply IH).
  - intros Hwf. destruct (utf8_encode_ok text Hwf) as (bs & Hbs & _). congruence.
Qed.

Lemma mapM_encode_error (segs : list str) (e : exn) :
  mapM Utf8.encode segs = Raise e ->
  e = UnicodeEncodeError /\ ~ Forall Utf8.well_formed segs.
Proof.
  revert e. induction segs as [|t segs IH]; intros e; cbn [mapM]; [discriminate|].
  destruct (Utf8.encode t) as [b|e'] eqn:Et; cbn [bind].
  - destruct (mapM Utf8.encode segs) as [bl|e'']; cbn [bind]; [discriminate|].
    intros [= <-]. destruct (IH e'' eq_refl) as [-> Hn].
    split; [reflexivity|]. intros Hall. inversion Hall. contradiction.
  - intros [= <-]. destruct (utf8_encode_error t e' Et) as [-> Hn].
    split; [reflexivity|]. intros Hall. inversion Hall. contradiction.
Qed.

Lemma basic_train_outcome (text : str) (vocab_size : Z) :
  train_outcome (Utf8.well_formed text) vocab_size
                (BasicTokenizer.train init text vocab_size).
Proof.
  unfold train_outcome, BasicTokenizer.train.
  destruct (Z.leb_spec 256 vocab_size) as [Hv|Hv]; cbn [negb].
  - destruct (Utf8.encode text) as [byte_ids|e] eqn:Et.
    + rewrite flat_train_loop.
      destruct (train_loop_from_init [byte_ids] (vocab_size - 256)) as (n & seqs & Htr & Hout).
      * intros s x [<-|[]] Hx. apply utf8_encode_inv in Et. destruct Et as [_ Hr].
        rewrite Forall_forall in Hr. now apply Hr.
      * lia.
      * exists n, seqs. split; [exact Htr|].
        destruct (snd _) as [[]|e]; [lia|].
        destruct Hout as (-> & Hlt & Hshort). auto.
    + exists 0%nat, []. split; [apply init_training; intros s x []|]. cbn [snd fst].
      destruct (utf8_encode_error text e Et) as [-> Hnot]. auto.
  - exists 0%nat, []. split; [apply init_training; intros s x []|]. cbn [snd fst]. auto.
Qed.

Lemma advance_train_outcome (findall : str -> list str) (text : str) (vocab_size : Z) :
  train_outcome (Forall Utf8.well_formed (findall text)) vocab_size
                (AdvanceTokenizer.train findall init text vocab_size).
Proof.
  unfold train_outcome, AdvanceTokenizer.train.
  destruct (Z.leb_spec 256 vocab_size) as [Hv|Hv]; cbn [negb].
  - destruct (mapM Utf8.encode (findall text)) as [bytes_list|e] eqn:Et.
    + destruct (train_loop_from_init bytes_list (vocab_size - 256)) as (n & seqs & Htr & Hout).
      * now apply (mapM_encode_inv (findall text)).
      * lia.
      * exists n, seqs. split; [exact Htr|].
        destruct (snd _) as [[]|e]; [lia|].
        destruct Hout as (-> & Hlt & Hshort). auto.
    + exists 0%nat, []. split; [apply init_training; intros s x []|]. cbn [snd fst].
      destruct (mapM_encode_error _ e Et) as [-> Hnot]. auto.
  - exists 0%nat, []. split; [apply init_training; intros s x []|]. cbn [snd fst]. auto.
Qed.

Lemma trained_consistent (text_ok : Prop) (vocab_size : Z) (r : tokenizer * result unit) :
  train_outcome text_ok vocab_size r -> consistent (fst r).
Proof. intros (n & seqs & Htr & _). apply Htr. Qed.

(* ------------------------------------------------------------------ *)
(** ** Decoding what encode produced *)

Lemma join_vocab_app (v : dict Z bytes) (xs ys : list Z) :
  BaseTokenizer.join_vocab v (xs ++ ys)
  = (a <- BaseTokenizer.join_vocab v xs ;; b <- BaseTokenizer.join_vocab v ys ;; Ok (a ++ b)).
Proof.
  induction xs as [|x xs IH]; cbn [app BaseTokenizer.join_vocab bind].
  - destruct (BaseTokenizer.join_vocab v ys); reflexivity.
  - destruct (PyDict.getitem v x) as [b|e]; [|reflexivity]. cbn [bind]. rewrite IH.
    destruct (BaseTokenizer.join_vocab v xs) as [a|e]; [|reflexivity]. cbn [bind].
    destruct (BaseTokenizer.join_vocab v ys) as [c|e]; [|reflexivity]. cbn [bind].
    now rewrite app_assoc.
Qed.

Lemma join_vocab_bytes (tk : tokenizer) (bs : bytes) :
  consistent tk -> Forall (fun b => 0 <= b < 256) bs ->
  BaseTokenizer.join_vocab (vocab_dict tk) bs = Ok bs.
Proof.
  intros [Hbase _]. induction 1 as [|b bs Hb _ IH]; [reflexivity|].
  cbn [BaseTokenizer.join_vocab]. unfold PyDict.getitem.
  rewrite (Hbase b Hb), IH. reflexivity.
Qed.

Lemma join_vocab_cons (v : dict Z bytes) (x : Z) (xs : list Z) (out : bytes) :
  BaseTokenizer.join_vocab v (x :: xs) = Ok out ->
  exists b rest, PyDict.get v x = Some b /\ BaseTokenizer.join_vocab v xs = Ok rest /\
                 out = b ++ rest.
Proof.
  cbn [BaseTokenizer.join_vocab]. unfold PyDict.getitem.
  destruct (PyDict.get v x) as [b|]; [|discriminate]. cbn [bind].
  destruct (BaseTokenizer.join_vocab v xs) as [rest|]; [|discriminate]. cbn [bind].
  intros [= <-]. eauto.
Qed.

Lemma join_vocab_merge (tk : tokenizer) (p : pair) (idx : Z) (s : list Z) (out : bytes) :
  consistent tk -> PyDict.get (merge_dict tk) p = Some idx ->
  BaseTokenizer.join_vocab (vocab_dict tk) s = Ok out ->
  BaseTokenizer.join_vocab (vocab_dict tk) (applyMerge s p idx) = Ok out.
Proof.
  intros [_ Hrule] Hp. destruct (Hrule p idx Hp) as (l & r & Hl & Hr & Hidx).
  revert out. induction s as [| a | a b t IHt IHbt] using list_ind2; intros out Hj; auto.
  rewrite applyMerge_cons2.
  destruct ((a =? fst p) && (b =? snd p)) eqn:E.
  - apply andb_true_iff in E. destruct E as [Ea Eb].
    apply Z.eqb_eq in Ea. apply Z.eqb_eq in Eb. subst a b.
    apply join_vocab_cons in Hj. destruct Hj as (b0 & rest0 & G0 & Hj & ->).
    apply join_vocab_cons in Hj. destruct Hj as (b1 & rest1 & G1 & Hj & ->).
    cbn [BaseTokenizer.join_vocab]. unfold PyDict.getitem.
    rewrite Hidx, (IHt _ Hj). cbn [bind].
    rewrite Hl in G0. rewrite Hr in G1. injection G0 as <-. injection G1 as <-.
    now rewrite app_assoc.
  - pose proof Hj as Hj'.
    apply join_vocab_cons in Hj. destruct Hj as (b0 & rest0 & G0 & Hj & ->).
    cbn [BaseTokenizer.join_vocab]. unfold PyDict.getitem.
    rewrite G0, (IHbt _ Hj). reflexivity.
Qed.

Lemma bpe_join (tk : tokenizer) (s : list Z) (bs : bytes) :
  consistent tk ->
  BaseTokenizer.join_vocab (vocab_dict tk) s = Ok bs ->
  exists out, bpe (merge_dict tk) s = Ok out /\
              BaseTokenizer.join_vocab (vocab_dict tk) out = Ok bs.
Proof.
  intros Hc. remember (length s) as n eqn:Hn. revert s Hn.
  induction n as [n IH] using lt_wf_ind. intros s -> Hj.
  rewrite bpe_unfold. unfold encode_round.
  destruct (Nat.leb_spec 2 (length s)) as [Hlen|Hlen]; [|eauto].
  destruct (select_spec (merge_dict tk) s Hlen) as (p & -> & Hin & _). cbn [bind].
  unfold PyDict.mem, PyDict.getitem.
  destruct (PyDict.get (merge_dict tk) p) as [idx|] eqn:Hp; cbn [negb bind]; [|eauto].
  apply (IH (length (merge s p idx))); [|reflexivity|].
  - rewrite merge_applyMerge. now apply applyMerge_shorter.
  - rewrite merge_applyMerge. now apply join_vocab_merge.
Qed.

Lemma utf8_encode_app (a b : str) :
  Utf8.encode (a ++ b) = (x <- Utf8.encode a ;; y <- Utf8.encode b ;; Ok (x ++ y)).
Proof.
  induction a as [|c a IH]; cbn [app Utf8.encode bind].
  - destruct (Utf8.encode b); reflexivity.
  - destruct (Utf8.encode_char c) as [bc|e]; [|reflexivity]. cbn [bind]. rewrite IH.
    destruct (Utf8.encode a) as [x|e]; [|reflexivity]. cbn [bind].
    destruct (Utf8.encode b) as [y|e]; [|reflexivity]. cbn [bind].
    now rewrite app_assoc.
Qed.

Lemma utf8_encode_concat (segs : list str) :
  Utf8.encode (concat segs) = (bl <- mapM Utf8.encode segs ;; Ok (concat bl)).
Proof.
  induction segs as [|t segs IH]; [reflexivity|].
  cbn [concat mapM]. rewrite utf8_encode_app, IH.
  destruct (Utf8.encode t) as [x|e]; [|reflexivity]. cbn [bind].
  destruct (mapM Utf8.encode segs) as [bl|e]; reflexivity.
Qed.

Lemma encode_subwords_concat (merges : dict pair Z) (bytes_list : list (list Z)) (acc : list Z) :
  AdvanceTokenizer.encode_subwords merges bytes_list acc
  = (outs <- mapM (bpe merges) bytes_list ;; Ok (acc ++ concat outs)).
Proof.
  revert acc. induction bytes_list as [|s bl IH]; intros acc;
    cbn [AdvanceTokenizer.encode_subwords mapM bind concat].
  - now rewrite app_nil_r.
  - destruct (bpe merges s) as [o|e]; [|reflexivity]. cbn [bind]. rewrite IH.
    destruct (mapM (bpe merges) bl) as [outs|e]; [|reflexivity]. cbn [bind concat].
    now rewrite app_assoc.
Qed.

Lemma mapM_bpe_join (tk : tokenizer) (bytes_list : list (list Z)) :
  consistent tk ->
  (forall s x, In s bytes_list -> In x s -> 0 <= x < 256) ->
  exists outs, mapM (bpe (merge_dict tk)) bytes_list = Ok outs /\
               BaseTokenizer.join_vocab (vocab_dict tk) (concat outs) = Ok (concat bytes_list).
Proof.
  intros Hc. induction bytes_list as [|s bl IH]; intros Hb.
  - exists []. split; reflexivity.
  - destruct IH as (outs & Houts & Hj); [intros s' x Hs'; apply Hb; now right|].
    assert (Hs : BaseTokenizer.join_vocab (vocab_dict tk) s = Ok s).
    { apply join_vocab_bytes; [exact Hc|]. apply Forall_forall. intros x Hx.
      apply (Hb s); [now left | exact Hx]. }
    destruct (bpe_join tk s s Hc Hs) as (o & Ho & Hjo).
    exists (o :: outs). cbn [mapM concat]. rewrite Ho, Houts. cbn [bind].
    split; [reflexivity|]. now rewrite join_vocab_app, Hjo, Hj.
Qed.

Lemma decode_after_encode (tk : tokenizer) (T : str) :
  consistent tk -> Utf8.well_formed T ->
  exists ids, BasicTokenizer.encode tk T = Ok ids /\ BasicTokenizer.decode tk ids = Ok T.
Proof.
  intros Hc Hwf. destruct (utf8_encode_ok T Hwf) as (bs & Hbs & Hr & Hd).
  destruct (bpe_join tk bs bs Hc (join_vocab_bytes tk bs Hc Hr)) as (ids & Hids & Hj).
  exists ids. unfold BasicTokenizer.encode, BasicTokenizer.decode, BaseTokenizer.decode.
  rewrite Hbs, Hj. cbn [bind]. split; [exact Hids | now rewrite Hd].
Qed.

Lemma segmented_decode_after_encode (findall : str -> list str) (tk : tokenizer) (T : str) :
  consistent tk -> Utf8.well_formed T -> concat (findall T) = T ->
  exists ids, AdvanceTokenizer.encode findall tk T = Ok ids /\
              AdvanceTokenizer.decode tk ids = Ok T.
Proof.
  intros Hc Hwf Hcover. destruct (utf8_encode_ok T Hwf) as (bs & Hbs & Hr & Hd).
  rewrite <- Hcover, utf8_encode_concat in Hbs.
  destruct (mapM Utf8.encode (findall T)) as [bl|e] eqn:Ebl; [|discriminate].
  cbn [bind] in Hbs. injection Hbs as <-.
  destruct (mapM_bpe_join tk bl Hc (mapM_encode_inv _ _ Ebl)) as (outs & Houts & Hj).
  exists (concat outs). unfold AdvanceTokenizer.encode, AdvanceTokenizer.decode.
  rewrite Ebl. cbn [bind]. rewrite encode_subwords_concat, Houts. cbn [bind app].
  split; [reflexivity|]. rewrite Hj. cbn [bind]. now rewrite Hd.
Qed.

Section Segmented.
Variable findall : str -> list str.

(** C1, as the code has it.  Round trip.  For every text [T] of Unicode
    scalar values (for the segmented tokenizer: which the matches of the
    pattern cover), [encode] returns token ids and [decode] of these ids is
    exactly [T], on every tokenizer whose vocabulary agrees with its merge
    rules: the 256 byte entries are in place and the entry of every rule's
    id is the concatenation of the entries of its two parts.  A [train] call
    on a fresh tokenizer, flat or segmented, with any text and any
    vocabulary size, leaves such a tokenizer whether it returns or raises.
    (A further [train] call on a trained tokenizer need not.) *)
Theorem decode_encode_roundtrip (text : str) (vocab_size : Z) (T : str) :
  Utf8.well_formed T ->
  concat (findall T) = T ->
  (forall tk, consistent tk ->
     (exists ids,
         BasicTokenizer.encode tk T = Ok ids /\ BasicTokenizer.decode tk ids = Ok T) /\
     (exists ids,
         AdvanceTokenizer.encode findall tk T = Ok ids /\
         AdvanceTokenizer.decode tk ids = Ok T)) /\
  consistent (fst (BasicTokenizer.train init text vocab_size)) /\
  consistent (fst (AdvanceTokenizer.train findall init text vocab_size)) /\
  (exists ids,
      BasicTokenizer.encode (fst (BasicTokenizer.train init text vocab_size)) T = Ok ids /\
      BasicTokenizer.decode (fst (BasicTokenizer.train init text vocab_size)) ids = Ok T) /\
  (exists ids,
      AdvanceTokenizer.encode findall
        (fst (AdvanceTokenizer.train findall init text vocab_size)) T = Ok ids /\
      AdvanceTokenizer.decode
        (fst (AdvanceTokenizer.train findall init text vocab_size)) ids = Ok T).
Proof.
  intros Hwf Hcover.
  pose proof (trained_consistent _ _ _ (basic_train_outcome text vocab_size)) as Hb.
  pose proof (trained_consistent _ _ _ (advance_train_outcome findall text vocab_size)) as Ha.
  split.
  { intros tk Hc. split.
    - now apply decode_after_encode.
    - now apply segmented_decode_after_encode. }
  split; [exact Hb|]. split; [exact Ha|]. split.
  - now apply decode_after_encode.
  - now apply segmented_decode_after_encode.
Qed.

End Segmented.

Lemma scalar_dec (c : Z) :
  ((0 <=? c) && (c <=? 0x10FFFF) && negb (Utf8.is_surrogate c) = true) -> Utf8.scalar c.
Proof.
  intros H. apply andb_true_iff in H. destruct H as [H Hs].
  apply andb_true_iff in H. destruct H as [H0 H1].
  apply Z.leb_le in H0. apply Z.leb_le in H1. apply negb_true_iff in Hs.
  split; [lia | exact Hs].
Qed.

Lemma decode_encode_roundtrip_witness :
  (exists ids,
      BasicTokenizer.encode
        (fst (BasicTokenizer.train init [97; 98; 32; 97; 98; 233] 258)) [97; 98; 32; 8364] = Ok ids /\
      BasicTokenizer.decode
        (fst (BasicTokenizer.train init [97; 98; 32; 97; 98; 233] 258)) ids = Ok [97; 98; 32; 8364]) /\
  (exists ids,
      AdvanceTokenizer.encode words
        (fst (AdvanceTokenizer.train words init [97; 98; 32; 97; 98; 233] 258))
        [97; 98; 32; 8364] = Ok ids /\
      AdvanceTokenizer.decode
        (fst (AdvanceTokenizer.train words init [97; 98; 32; 97; 98; 233] 258)) ids
      = Ok [97; 98; 32; 8364]).
Proof.
  apply (decode_encode_roundtrip words [97; 98; 32; 97; 98; 233] 258 [97; 98; 32; 8364]).
  - repeat constructor; apply scalar_dec; reflexivity.
  - reflexivity.
Defined.

(** C1 as stated fails after a second [train] call on the same instance.
    Training on "aa" and then on "bb", one merge each, leaves the rules
    [(97, 97) -> 256] and [(98, 98) -> 256] and the entry "bb" for the id
    256: [encode("aa")] is [\[256\]] and [decode(\[256\])] is "bb", with the
    flat and with the segmented tokenizer. *)
Lemma roundtrip_fails_after_retraining :
  Utf8.well_formed [97; 97] /\
  concat (words [97; 97]) = [97; 97] /\
  BasicTokenizer.train init [97; 97] 257
  = (with_vocab (with_merge init (97, 97) 256) 256 [97; 97], Ok tt) /\
  snd (BasicTokenizer.train (fst (BasicTokenizer.train init [97; 97] 257)) [98; 98] 257)
  = Ok tt /\
  BasicTokenizer.encode
    (fst (BasicTokenizer.train (fst (BasicTokenizer.train init [97; 97] 257)) [98; 98] 257))
    [97; 97] = Ok [256] /\
  BasicTokenizer.decode
    (fst (BasicTokenizer.train (fst (BasicTokenizer.train init [97; 97] 257)) [98; 98] 257))
    [256] = Ok [98; 98] /\
  ~ (exists ids,
        BasicTokenizer.encode
          (fst (BasicTokenizer.train (fst (BasicTokenizer.train init [97; 97] 257))
                  [98; 98] 257)) [97; 97] = Ok ids /\
        BasicTokenizer.decode
          (fst (BasicTokenizer.train (fst (BasicTokenizer.train init [97; 97] 257))
                  [98; 98] 257)) ids = Ok [97; 97]) /\
  ~ (exists ids,
        AdvanceTokenizer.encode words
          (fst (AdvanceTokenizer.train words
                  (fst (AdvanceTokenizer.train words init [97; 97] 257)) [98; 98] 257))
          [97; 97] = Ok ids /\
        AdvanceTokenizer.decode
          (fst (AdvanceTokenizer.train words
                  (fst (AdvanceTokenizer.train words init [97; 97] 257)) [98; 98] 257))
          ids = Ok [97; 97]).
Proof.
  split; [repeat constructor; apply scalar_dec; reflexivity|].
  split; [reflexivity|]. split; [reflexivity|]. split; [reflexivity|].
  split; [reflexivity|]. split; [reflexivity|]. split.
  - intros (ids & He & Hd).
    assert (Hids : ids = [256]) by (vm_compute in He; congruence).
    subst ids. vm_compute in Hd. discriminate.
  - intros (ids & He & Hd).
    assert (Hids : ids = [256]) by (vm_compute in He; congruence).
    subst ids. vm_compute in Hd. discriminate.
Qed.

(* ------------------------------------------------------------------ *)
(** ** Segments *)

Lemma mapM_app {A B : Type} (f : A -> result B) (xs ys : list A) :
  mapM f (xs ++ ys) = (a <- mapM f xs ;; b <- mapM f ys ;; Ok (a ++ b)).
Proof.
  induction xs as [|x xs IH]; cbn [app mapM bind].
  - destruct (mapM f ys); reflexivity.
  - destruct (f x) as [y|e]; [|reflexivity]. cbn [bind]. rewrite IH.
    destruct (mapM f xs) as [a|e]; [|reflexivity]. cbn [bind].
    destruct (mapM f ys) as [b|e]; reflexivity.
Qed.

Lemma segmented_encode_unfold (findall : str -> list str) (tk : tokenizer) (text : str) :
  AdvanceTokenizer.encode findall tk text
  = (bytes_list <- mapM Utf8.encode (findall text) ;;
     outs <- mapM (bpe (merge_dict tk)) bytes_list ;;
     Ok (concat outs)).
Proof.
  unfold AdvanceTokenizer.encode.
  destruct (mapM Utf8.encode (findall text)) as [bl|e]; [|reflexivity].
  cbn [bind]. now rewrite encode_subwords_concat.
Qed.

Lemma bpe_no_merges (s : list Z) : bpe PyDict.empty s = Ok s.
Proof.
  rewrite bpe_unfold. unfold encode_round.
  destruct (Nat.leb_spec 2 (length s)) as [Hlen|Hlen]; [|reflexivity].
  destruct (select_spec PyDict.empty s Hlen) as (p & -> & _). reflexivity.
Qed.

Lemma mapM_bpe_no_merges (bl : list (list Z)) : mapM (bpe PyDict.empty) bl = Ok bl.
Proof.
  induction bl as [|s bl IH]; [reflexivity|].
  cbn [mapM]. now rewrite bpe_no_merges, IH.
Qed.

Lemma mapM_bpe_total (merges : dict pair Z) (bl : list (list Z)) :
  exists outs, mapM (bpe merges) bl = Ok outs.
Proof.
  induction bl as [|s bl (outs & IH)]; [now exists []|].
  destruct (bpe_total merges s) as (o & Ho).
  exists (o :: outs). cbn [mapM]. now rewrite Ho, IH.
Qed.

Section SegmentedEncode.
Variable findall : str -> list str.

(** C5. The segmented [encode] splits the text with the pattern, runs the
    flat encode loop on the bytes of each segment by itself and returns the
    results concatenated in segment order, so every token lies within one
    segment; and when the segments of [A ++ B] are those of [A] followed by
    those of [B], encoding [A ++ B] is encoding [A], then [B], and appending
    the results. *)
Theorem segment_independence (tk : tokenizer) (A B : str) :
  findall (A ++ B) = findall A ++ findall B ->
  (forall text,
      AdvanceTokenizer.encode findall tk text
      = (bytes_list <- mapM Utf8.encode (findall text) ;;
         outs <- mapM (bpe (merge_dict tk)) bytes_list ;;
         Ok (concat outs))) /\
  AdvanceTokenizer.encode findall tk (A ++ B)
  = (xa <- AdvanceTokenizer.encode findall tk A ;;
     xb <- AdvanceTokenizer.encode findall tk B ;;
     Ok (xa ++ xb)).
Proof.
  intros Hsplit. split; [intros text; apply segmented_encode_unfold|].
  rewrite !segmented_encode_unfold, Hsplit, mapM_app.
  destruct (mapM Utf8.encode (findall A)) as [la|e]; [|reflexivity]. cbn [bind].
  destruct (mapM Utf8.encode (findall B)) as [lb|e]; cbn [bind].
  - rewrite mapM_app.
    destruct (mapM (bpe (merge_dict tk)) la) as [oa|e]; [|reflexivity]. cbn [bind].
    destruct (mapM (bpe (merge_dict tk)) lb) as [ob|e]; [|reflexivity]. cbn [bind].
    now rewrite concat_app.
  - destruct (mapM_bpe_total (merge_dict tk) la) as (oa & ->). reflexivity.
Qed.

End SegmentedEncode.

Lemma segment_independence_witness :
  AdvanceTokenizer.encode words (with_merge init (97, 98) 256) ([97; 98; 32] ++ [97; 98])
  = (xa <- AdvanceTokenizer.encode words (with_merge init (97, 98) 256) [97; 98; 32] ;;
     xb <- AdvanceTokenizer.encode words (with_merge init (97, 98) 256) [97; 98] ;;
     Ok (xa ++ xb)).
Proof.
  exact (proj2 (segment_independence words (with_merge init (97, 98) 256)
                  [97; 98; 32] [97; 98] eq_refl)).
Defined.

Section Untrained.
Variable findall : str -> list str.

(** C10. With an empty merge table the loop of [encode] stops at its first
    selection, so the flat and the segmented [encode] return the UTF-8 byte
    values of the text, as [BaseTokenizer.encode] does (for the segmented
    one, on a text the matches of the pattern cover); on the empty string all
    three return the empty list.  A fresh tokenizer has an empty merge
    table. *)
Theorem untrained_encode_is_bytes (tk : tokenizer) (text : str) :
  merge_dict tk = PyDict.empty ->
  concat (findall text) = text ->
  merge_dict init = PyDict.empty /\
  (forall s, bpe (merge_dict tk) s = Ok s) /\
  BasicTokenizer.encode tk text = BaseTokenizer.encode text /\
  AdvanceTokenizer.encode findall tk text = BaseTokenizer.encode text /\
  (text = [] ->
   BaseTokenizer.encode text = Ok [] /\
   BasicTokenizer.encode tk text = Ok [] /\
   AdvanceTokenizer.encode findall tk text = Ok []).
Proof.
  intros Hmd Hcover.
  assert (Hflat : BasicTokenizer.encode tk text = BaseTokenizer.encode text).
  { unfold BasicTokenizer.encode, BaseTokenizer.encode. rewrite Hmd.
    destruct (Utf8.encode text) as [bs|e]; [|reflexivity]. cbn [bind]. apply bpe_no_merges. }
  assert (Hseg : AdvanceTokenizer.encode findall tk text = BaseTokenizer.encode text).
  { unfold BaseTokenizer.encode. rewrite <- Hcover at 2.
    rewrite segmented_encode_unfold, utf8_encode_concat, Hmd.
    destruct (mapM Utf8.encode (findall text)) as [bl|e]; [|reflexivity]. cbn [bind].
    now rewrite mapM_bpe_no_merges. }
  split; [reflexivity|].
  split; [intros s; rewrite Hmd; apply bpe_no_merges|].
  split; [exact Hflat|]. split; [exact Hseg|].
  intros ->. rewrite Hflat, Hseg. auto.
Qed.

End Untrained.

Lemma untrained_encode_is_bytes_witness :
  BasicTokenizer.encode init [97; 98; 32; 233] = BaseTokenizer.encode [97; 98; 32; 233] /\
  AdvanceTokenizer.encode words init [97; 98; 32; 233] = BaseTokenizer.encode [97; 98; 32; 233].
Proof.
  destruct (untrained_encode_is_bytes words init [97; 98; 32; 233] eq_refl eq_refl)
    as (_ & _ & Hflat & Hseg & _).
  exact (conj Hflat Hseg).
Defined.

(* ------------------------------------------------------------------ *)
(** ** The byte entries survive every [train] call *)

Lemma learn_keeps_bytes (tk : tokenizer) (p : pair) (idx : Z) :
  256 <= idx ->
  (forall b, 0 <= b < 256 -> PyDict.get (vocab_dict tk) b = Some [b]) ->
  forall b, 0 <= b < 256 -> PyDict.get (vocab_dict (fst (learn tk p idx))) b = Some [b].
Proof.
  intros Hidx Hbase b Hb. unfold learn.
  destruct (PyDict.getitem _ (fst p)); [|now apply Hbase].
  destruct (PyDict.getitem _ (snd p)); [|now apply Hbase].
  cbn [fst vocab_dict with_vocab with_merge]. rewrite get_set_neq by lia. now apply Hbase.
Qed.

Lemma train_loop_keeps_bytes (idxs : list Z) :
  forall (bytes_list : list (list Z)) (tk : tokenizer),
    Forall (fun i => 0 <= i) idxs ->
    (forall b, 0 <= b < 256 -> PyDict.get (vocab_dict tk) b = Some [b]) ->
    forall b, 0 <= b < 256 ->
      PyDict.get (vocab_dict (fst (AdvanceTokenizer.train_loop idxs bytes_list tk))) b = Some [b].
Proof.
  induction idxs as [|i idxs IH]; intros bytes_list tk Hpos Hbase; [exact Hbase|].
  inversion Hpos as [|? ? Hi Hrest]; subst.
  cbn [AdvanceTokenizer.train_loop].
  destruct (py_max _ _ _) as [p|e]; [|exact Hbase].
  pose proof (learn_keeps_bytes tk p (256 + i) ltac:(lia) Hbase) as Hl.
  destruct (learn tk p (256 + i)) as [tk' [[]|e]]; cbn [fst] in Hl; [|exact Hl].
  now apply IH.
Qed.

Lemma range_nonneg (n : Z) : Forall (fun i => 0 <= i) (range n).
Proof. apply Forall_forall. intros i Hi. apply In_range in Hi. lia. Qed.

Lemma reachable_bytes (findall : str -> list str) (tk : tokenizer) :
  reachable findall tk ->
  forall b, 0 <= b < 256 -> PyDict.get (vocab_dict tk) b = Some [b].
Proof.
  induction 1 as [| tk text vocab_size _ IH | tk text vocab_size _ IH].
  - apply (init_training []). intros s x [].
  - unfold BasicTokenizer.train.
    destruct (negb (256 <=? vocab_size)); [exact IH|].
    destruct (Utf8.encode text) as [byte_ids|e]; [|exact IH].
    rewrite flat_train_loop. apply train_loop_keeps_bytes; [apply range_nonneg | exact IH].
  - unfold AdvanceTokenizer.train.
    destruct (negb (256 <=? vocab_size)); [exact IH|].
    destruct (mapM Utf8.encode (findall text)) as [bytes_list|e]; [|exact IH].
    apply train_loop_keeps_bytes; [apply range_nonneg | exact IH].
Qed.

(* ------------------------------------------------------------------ *)
(** ** decode *)

Lemma join_vocab_error (v : dict Z bytes) (ids : list Z) :
  match BaseTokenizer.join_vocab v ids with
  | Ok bs =>
      exists parts, Forall2 (fun id b => PyDict.get v id = Some b) ids parts /\
                    bs = concat parts
  | Raise e => e = KeyError /\ exists id, In id ids /\ PyDict.get v id = None
  end.
Proof.
  induction ids as [|t ts IH]; cbn [BaseTokenizer.join_vocab].
  - exists []. split; [constructor | reflexivity].
  - unfold PyDict.getitem. destruct (PyDict.get v t) as [b|] eqn:Et; cbn [bind].
    + destruct (BaseTokenizer.join_vocab v ts) as [bs|e]; cbn [bind].
      * destruct IH as (parts & Hparts & ->). exists (b :: parts).
        split; [now constructor | reflexivity].
      * destruct IH as (-> & id & Hin & Hid). split; [reflexivity|].
        exists id. split; [now right | exact Hid].
    + split; [reflexivity|]. exists t. split; [now left | exact Et].
Qed.

Lemma join_vocab_parts (v : dict Z bytes) (ids : list Z) (parts : list bytes) :
  Forall2 (fun id b => PyDict.get v id = Some b) ids parts ->
  BaseTokenizer.join_vocab v ids = Ok (concat parts).
Proof.
  induction 1 as [|x b xs bs Hx _ IH]; [reflexivity|].
  cbn [BaseTokenizer.join_vocab concat]. unfold PyDict.getitem.
  now rewrite Hx, IH.
Qed.

(** C6. [decode] concatenates the vocabulary entries of the ids in order and
    decodes the bytes as UTF-8 with U+FFFD for ill-formed runs.  It raises
    exactly when some id has no vocabulary entry, the exception is then
    [KeyError] and nothing is returned; with every id present it returns,
    whatever the bytes are.  The three tokenizers decode alike.  On a fresh
    tokenizer and after any number of [train] calls, [decode(\[97\])] is "a"
    and [decode(\[\])] is the empty string; ill-formed bytes come out as
    U+FFFD. *)
Theorem decode_error_behaviour :
  (forall tk ids,
      (exists e, BaseTokenizer.decode tk ids = Raise e)
      <-> exists id, In id ids /\ PyDict.get (vocab_dict tk) id = None) /\
  (forall tk ids e, BaseTokenizer.decode tk ids = Raise e -> e = KeyError) /\
  (forall tk ids parts,
      Forall2 (fun id b => PyDict.get (vocab_dict tk) id = Some b) ids parts ->
      BaseTokenizer.decode tk ids = Ok (Utf8.decode_replace (concat parts))) /\
  (forall tk ids,
      BasicTokenizer.decode tk ids = BaseTokenizer.decode tk ids /\
      AdvanceTokenizer.decode tk ids = BaseTokenizer.decode tk ids) /\
  (forall findall tk,
      reachable findall tk ->
      BaseTokenizer.decode tk [97] = Ok [97] /\ BaseTokenizer.decode tk [] = Ok []) /\
  BaseTokenizer.decode init [255] = Ok [Utf8.replacement] /\
  BaseTokenizer.decode init [226; 130; 97] = Ok [Utf8.replacement; 97].
Proof.
  split.
  { intros tk ids. unfold BaseTokenizer.decode.
    pose proof (join_vocab_error (vocab_dict tk) ids) as Hj.
    destruct (BaseTokenizer.join_vocab (vocab_dict tk) ids) as [bs|e]; cbn [bind].
    - split; [intros (e & He); discriminate|].
      intros (id & Hin & Hid). exfalso.
      destruct Hj as (parts & Hparts & _). clear -Hparts Hin Hid.
      induction Hparts as [|x b xs bs' Hx _ IH]; [contradiction|].
      destruct Hin as [<-|Hin]; [congruence | auto].
    - split; [intros _; apply Hj | intros _; eauto]. }
  split.
  { intros tk ids e. unfold BaseTokenizer.decode.
    pose proof (join_vocab_error (vocab_dict tk) ids) as Hj.
    destruct (BaseTokenizer.join_vocab (vocab_dict tk) ids) as [bs|e']; cbn [bind];
      [discriminate|]. intros [= <-]. apply Hj. }
  split.
  { intros tk ids parts Hparts. unfold BaseTokenizer.decode.
    now rewrite (join_vocab_parts _ _ _ Hparts). }
  split; [intros tk ids; split; reflexivity|].
  split; [|split; reflexivity].
  intros findall tk Htk.
  split; [|reflexivity].
  unfold BaseTokenizer.decode. cbn [BaseTokenizer.join_vocab]. unfold PyDict.getitem.
  rewrite (reachable_bytes findall tk Htk 97) by lia. reflexivity.
Qed.

(* ------------------------------------------------------------------ *)
(** ** The vocabulary as a function of the merge rules *)

Lemma load_fold_saved (xs acc : dict pair Z) :
  NoDup (PyDict.keys (acc ++ xs)) ->
  fold_left (fun d l => PyDict.set d (fst (fst l), snd (fst l)) (snd l))
            (map (fun kv => (fst (fst kv), snd (fst kv), snd kv)) xs) acc
  = acc ++ xs.
Proof.
  revert acc. induction xs as [|[[a b] v] xs IH]; intros acc Hnd.
  - cbn. now rewrite app_nil_r.
  - cbn [map fold_left fst snd].
    assert (Habs : PyDict.get acc (a, b) = None).
    { apply get_None_keys. unfold PyDict.keys in *. rewrite map_app in Hnd.
      cbn [map fst] in Hnd. apply NoDup_remove_2 in Hnd.
      intros Hin. apply Hnd. apply in_or_app. now left. }
    replace (PyDict.set acc (a, b) v) with (acc ++ [(a, b, v)])
      by (symmetry; apply (set_absent acc (a, b) v Habs)).
    rewrite IH.
    + now rewrite <- app_assoc.
    + now rewrite <- app_assoc.
Qed.

Lemma training_vocabulary_invariant (n : nat) (seqs : list (list Z)) (tk : tokenizer) :
  training n seqs tk -> vocabulary_invariant tk /\ reloads tk /\ rule_ids tk = first_ids n.
Proof.
  intros [[Hbase Hrule] Hids Hbuild _ _ _ _ Hnodup]. split; [split; [exact Hbase | split]|split].
  - intros p idx Hp. split; [|now apply Hrule].
    apply get_In in Hp. apply (in_map snd) in Hp. fold (rule_ids tk) in Hp.
    rewrite Hids in Hp. apply in_map_iff in Hp. destruct Hp as (k & Hk & _).
    cbn [snd] in Hk. lia.
  - exact Hbuild.
  - unfold reloads, BaseTokenizer.load, BaseTokenizer.save_model.
    cbn [merge_dict init]. rewrite (load_fold_saved (merge_dict tk) PyDict.empty Hnodup).
    cbn [app PyDict.empty]. rewrite Hbuild. now destruct tk.
  - exact Hids.
Qed.




Section Vocabulary.
Variable findall : str -> list str.


End Vocabulary.

(* ------------------------------------------------------------------ *)
(** ** How [train] ends *)


Lemma train_loop_errors (idxs : list Z) :
  forall (bytes_list : list (list Z)) (tk : tokenizer) (e : exn),
    snd (AdvanceTokenizer.train_loop idxs bytes_list tk) = Raise e ->
    e = ValueError \/ e = KeyError.
Proof.
  induction idxs as [|i idxs IH]; intros bytes_list tk e; cbn [AdvanceTokenizer.train_loop].
  - discriminate.
  - pose proof (max_pair_spec bytes_list) as Hmax. cbn zeta in Hmax.
    destruct (py_max _ _ _) as [p|e'].
    + unfold learn, PyDict.getitem.
      destruct (PyDict.get _ (fst p)); [|cbn; intros [= <-]; now right].
      destruct (PyDict.get _ (snd p)); [|cbn; intros [= <-]; now right].
      apply IH.
    + destruct Hmax as [-> _]. cbn. intros [= <-]. now left.
Qed.

Lemma train_outcome_ids (text_ok : Prop) (vocab_size : Z) (r : tokenizer * result unit) :
  train_outcome text_ok vocab_size r ->
  consistent (fst r) /\
  exists n : nat,
    rule_ids (fst r) = first_ids n /\
    match snd r with
    | Ok _ => 256 <= vocab_size /\ Z.of_nat n = vocab_size - 256
    | Raise ValueError => 256 <= vocab_size /\ Z.of_nat n < vocab_size - 256
    | Raise AssertionError => vocab_size < 256 /\ fst r = init
    | Raise UnicodeEncodeError => 256 <= vocab_size /\ fst r = init
    | Raise KeyError => False
    end.
Proof.
  intros (n & seqs & Htr & Hout). split; [apply Htr|].
  exists n. split; [apply (training_vocabulary_invariant n seqs _ Htr)|].
  destruct (snd r) as [[]|[]]; tauto.
Qed.

Section Outcome.
Variable findall : str -> list str.


(** C9, as the code has it.  [train] raises [AssertionError] exactly when
    [vocab_size < 256], and then leaves the tokenizer untouched.  Otherwise
    it proceeds to the loop over [range(vocab_size - 256)]; when it returns
    normally on a fresh tokenizer it has performed [vocab_size - 256] merges,
    with ids 256 up to [vocab_size - 1]. *)
Theorem train_precondition (tk : tokenizer) (text : str) (vocab_size : Z) :
  (snd (BasicTokenizer.train tk text vocab_size) = Raise AssertionError <-> vocab_size < 256) /\
  (snd (AdvanceTokenizer.train findall tk text vocab_size) = Raise AssertionError
   <-> vocab_size < 256) /\
  (vocab_size < 256 ->
   fst (BasicTokenizer.train tk text vocab_size) = tk /\
   fst (AdvanceTokenizer.train findall tk text vocab_size) = tk) /\
  (256 <= vocab_size ->
   BasicTokenizer.train tk text vocab_size
   = match Utf8.encode text with
     | Raise e => (tk, Raise e)
     | Ok byte_ids => BasicTokenizer.train_loop (range (vocab_size - 256)) byte_ids tk
     end /\
   AdvanceTokenizer.train findall tk text vocab_size
   = match mapM Utf8.encode (findall text) with
     | Raise e => (tk, Raise e)
     | Ok bytes_list => AdvanceTokenizer.train_loop (range (vocab_size - 256)) bytes_list tk
     end) /\
  (snd (BasicTokenizer.train init text vocab_size) = Ok tt ->
   rule_ids (fst (BasicTokenizer.train init text vocab_size))
   = map (fun i => 256 + i) (range (vocab_size - 256))) /\
  (snd (AdvanceTokenizer.train findall init text vocab_size) = Ok tt ->
   rule_ids (fst (AdvanceTokenizer.train findall init text vocab_size))
   = map (fun i => 256 + i) (range (vocab_size - 256))).
Proof.
  assert (Hids : forall text_ok r,
             train_outcome text_ok vocab_size r -> snd r = Ok tt ->
             rule_ids (fst r) = map (fun i => 256 + i) (range (vocab_size - 256))).
  { intros text_ok r Hr Hok. destruct (train_outcome_ids _ _ _ Hr) as (_ & n & Hn & Hout).
    rewrite Hok in Hout. destruct Hout as [_ Hout].
    rewrite Hn. unfold first_ids, range. rewrite map_map.
    replace (Z.to_nat (vocab_size - 256)) with n by lia. reflexivity. }
  assert (Hb := Hids _ _ (basic_train_outcome text vocab_size)).
  assert (Ha := Hids _ _ (advance_train_outcome findall text vocab_size)).
  refine (conj _ (conj _ (conj _ (conj _ (conj Hb Ha)))));
    unfold BasicTokenizer.train, AdvanceTokenizer.train;
    destruct (Z.leb_spec 256 vocab_size) as [Hv|Hv]; cbn [negb fst snd];
    try (split; [tauto | lia]); try (intros; lia); auto.
  - split; [|lia]. destruct (Utf8.encode text) as [b|e] eqn:Et.
    + rewrite flat_train_loop. intros He. apply train_loop_errors in He.
      destruct He; discriminate.
    + apply utf8_encode_error in Et. destruct Et as [-> _]. discriminate.
  - tauto.
  - split; [|lia]. destruct (mapM Utf8.encode (findall text)) as [b|e] eqn:Et.
    + intros He. apply train_loop_errors in He. destruct He; discriminate.
    + apply mapM_encode_error in Et. destruct Et as [-> _]. discriminate.
  - tauto.
Qed.

End Outcome.



(** On the corpus "ab" with three merges requested, one merge is learned,
    the second iteration raises and the third is never reached. *)
Lemma train_fewer_merges_than_requested :
  256 <= 259 /\
  BasicTokenizer.train init [97; 98] 259
  = (with_vocab (with_merge init (97, 98) 256) 256 [97; 98], Raise ValueError) /\
  rule_ids (fst (BasicTokenizer.train init [97; 98] 259)) = [256].
Proof. split; [lia|]. split; reflexivity. Qed.

(* ------------------------------------------------------------------ *)
(** * Further properties of the code *)

(** ** helper.merge loses nothing *)

Lemma applyMerge_absent (l : list Z) (p : pair) (idx : Z) :
  ~ In p (adjacent l) -> applyMerge l p idx = l.
Proof.
  induction l as [| a | a b r _ IH] using list_ind2; try reflexivity.
  rewrite adjacent_cons2, applyMerge_cons2. intros Hn.
  destruct ((a =? fst p) && (b =? snd p)) eqn:E.
  - exfalso. apply Hn. left. apply andb_true_iff in E. destruct E as [Ea Eb].
    apply Z.eqb_eq in Ea. apply Z.eqb_eq in Eb. subst. now destruct p.
  - f_equal. apply IH. intros Hin. apply Hn. now right.
Qed.

Lemma expand_applyMerge (l : list Z) (p : pair) (idx : Z) :
  ~ In idx l -> expand (applyMerge l p idx) p idx = l.
Proof.
  unfold expand.
  induction l as [| a | a b r IHr IHbr] using list_ind2; intros Hn.
  - reflexivity.
  - cbn. destruct (Z.eqb_spec a idx) as [->|_]; [exfalso; apply Hn; now left | reflexivity].
  - rewrite applyMerge_cons2.
    destruct ((a =? fst p) && (b =? snd p)) eqn:E.
    + apply andb_true_iff in E. destruct E as [Ea Eb].
      apply Z.eqb_eq in Ea. apply Z.eqb_eq in Eb. subst a b.
      cbn [flat_map]. rewrite Z.eqb_refl, IHr; [reflexivity|].
      intros Hin. apply Hn. right. now right.
    + cbn [flat_map].
      destruct (Z.eqb_spec a idx) as [->|_]; [exfalso; apply Hn; now left|].
      rewrite IHbr; [reflexivity|]. intros Hin. apply Hn. now right.
Qed.

(** X1. After [merge(l, pair, idx)] with an [idx] that is neither part of
    the pair, the pair no longer occurs at adjacent positions of the result;
    and a list in which the pair does not occur comes back unchanged. *)
Theorem merge_removes_pair (l : list Z) (p : pair) (idx : Z) :
  idx <> fst p -> idx <> snd p ->
  ~ In p (adjacent (merge l p idx)) /\
  (~ In p (adjacent l) -> merge l p idx = l).
Proof.
  intros H0 H1. rewrite merge_applyMerge. split.
  - intros Hin. apply adjacent_applyMerge in Hin.
    destruct Hin as [[Hf|Hs]|[_ Hne]]; congruence.
  - apply applyMerge_absent.
Qed.

Lemma merge_removes_pair_witness :
  ~ In (1, 1) (adjacent (merge [1; 1; 1; 2; 1; 1] (1, 1) 9)).
Proof.
  apply (merge_removes_pair [1; 1; 1; 2; 1; 1] (1, 1) 9); cbn; lia.
Defined.

(** X2. [merge] is lossless for a new id: when [idx] does not occur in the
    list, replacing every [idx] of the result by the two parts of the pair
    gives the list back. *)
Theorem merge_is_invertible (l : list Z) (p : pair) (idx : Z) :
  ~ In idx l -> expand (merge l p idx) p idx = l.
Proof. intros Hn. rewrite merge_applyMerge. now apply expand_applyMerge. Qed.

Lemma merge_is_invertible_witness :
  expand (merge [1; 2; 3; 1; 2; 4] (1, 2) 99) (1, 2) 99 = [1; 2; 3; 1; 2; 4].
Proof.
  apply (merge_is_invertible [1; 2; 3; 1; 2; 4] (1, 2) 99).
  cbn. intros H. repeat (destruct H as [H|H]; [lia|]). exact H.
Defined.

(** ** helper.getPairStats: totals and key order *)

Lemma total_set (st : stats) (q : pair) (v : Z) :
  total (PyDict.set st q v) = total st - count_of st q + v.
Proof.
  unfold total, count_of.
  induction st as [|[k c] r IH]; cbn [PyDict.set PyDict.get map sumZ fold_right snd].
  - lia.
  - change (keqb q k) with (pair_eqb q k).
    destruct (pair_eqb q k); cbn [map sumZ fold_right snd].
    + lia.
    + unfold sumZ in IH. rewrite IH. lia.
Qed.

Lemma total_count_pair (st : stats) (q : pair) :
  total (count_pair st q) = total st + 1.
Proof.
  unfold count_pair. pose proof (total_set st q) as Hs. unfold count_of in Hs.
  destruct (PyDict.get st q) as [c|]; rewrite Hs; lia.
Qed.

Lemma total_fold_count (ps : list pair) (st : stats) :
  total (fold_left count_pair ps st) = total st + Z.of_nat (length ps).
Proof.
  revert st. induction ps as [|q ps IH]; intros st; cbn [fold_left length].
  - lia.
  - rewrite IH, total_count_pair. lia.
Qed.

Lemma adjacent_length (l : list Z) : length (adjacent l) = (length l - 1)%nat.
Proof.
  induction l as [| a | a b r _ IH] using list_ind2; try reflexivity.
  rewrite adjacent_cons2. cbn [length] in *. lia.
Qed.

Lemma keys_count_pair (st : stats) (q : pair) :
  PyDict.keys (count_pair st q)
  = if existsb (pair_eqb q) (PyDict.keys st) then PyDict.keys st else PyDict.keys st ++ [q].
Proof.
  unfold count_pair, PyDict.keys.
  induction st as [|[k c] r IH]; [reflexivity|].
  cbn [PyDict.get PyDict.set map fst existsb].
  change (keqb q k) with (pair_eqb q k).
  destruct (pair_eqb q k) eqn:E; cbn [orb map fst]; [reflexivity|].
  destruct (PyDict.get r q) as [c'|];
    (cbn [map fst]; rewrite IH;
     now destruct (existsb (pair_eqb q) (map fst r))).
Qed.

Lemma keys_fold_count (ps : list pair) (st : stats) :
  PyDict.keys (fold_left count_pair ps st) = first_seen ps (PyDict.keys st).
Proof.
  revert st. induction ps as [|q ps IH]; intros st; [reflexivity|].
  cbn [fold_left first_seen]. rewrite IH, keys_count_pair.
  now destruct (existsb (pair_eqb q) (PyDict.keys st)).
Qed.

Lemma first_seen_NoDup (ps seen : list pair) : NoDup seen -> NoDup (first_seen ps seen).
Proof.
  revert seen. induction ps as [|q ps IH]; intros seen Hnd; [exact Hnd|].
  cbn [first_seen]. destruct (existsb (pair_eqb q) seen) eqn:E; [now apply IH|].
  apply IH. apply NoDup_app; [exact Hnd | repeat constructor; intros [] |].
  intros x Hx [<-|[]].
  assert (Hex : existsb (pair_eqb q) seen = true).
  { apply existsb_exists. exists q. split; [exact Hx | now apply pair_eqb_eq]. }
  congruence.
Qed.

(** X3. The counts of [getPairStats] add up: the result's counts sum to the
    accumulator's plus [len(byteList) - 1] (plus nothing for a list shorter
    than two), one for every adjacent position. *)
Theorem getPairStats_total (l : list Z) (acc : stats) :
  total (getPairStats l None) = Z.of_nat (length l - 1) /\
  total (getPairStats l (Some acc)) = total acc + Z.of_nat (length l - 1).
Proof.
  rewrite !getPairStats_fold, !total_fold_count, adjacent_length. split; reflexivity.
Qed.

(** X4. The keys of the dictionary [getPairStats] returns are pairwise
    distinct and stand in the order in which the pairs first occur in the
    list (after the accumulator's own keys): the iteration order that decides
    ties in [max] and [min]. *)
Theorem getPairStats_key_order (l : list Z) (acc : stats) :
  PyDict.keys (getPairStats l None) = first_seen (adjacent l) [] /\
  NoDup (PyDict.keys (getPairStats l None)) /\
  PyDict.keys (getPairStats l (Some acc)) = first_seen (adjacent l) (PyDict.keys acc).
Proof.
  rewrite !getPairStats_fold, !keys_fold_count. split; [reflexivity|].
  split; [apply first_seen_NoDup; constructor | reflexivity].
Qed.

(** ** The pair a training round merges *)

Lemma fold_max_first {A : Type} (key : A -> Z) (rest : list A) :
  forall (pre : list A) (x : A) (mid : list A),
    (forall a, In a pre -> key a < key x) ->
    (forall a, In a mid -> key a <= key x) ->
    first_max key (pre ++ x :: mid ++ rest)
      (fold_left (fun best y => if key best <? key y then y else best) rest x).
Proof.
  induction rest as [|y rest IH]; intros pre x mid Hpre Hmid.
  - exists pre, mid. rewrite app_nil_r. auto.
  - cbn [fold_left]. destruct (Z.ltb_spec (key x) (key y)) as [Hlt|Hge].
    + replace (pre ++ x :: mid ++ y :: rest)
        with ((pre ++ x :: mid) ++ y :: [] ++ rest)
        by (rewrite <- app_assoc; reflexivity).
      apply IH.
      * intros a Ha. apply in_app_or in Ha. destruct Ha as [Ha|[<-|Ha]].
        -- specialize (Hpre a Ha). lia.
        -- exact Hlt.
        -- specialize (Hmid a Ha). lia.
      * intros a [].
    + replace (pre ++ x :: mid ++ y :: rest)
        with (pre ++ x :: (mid ++ [y]) ++ rest)
        by (rewrite <- app_assoc; reflexivity).
      apply IH; [exact Hpre|].
      intros a Ha. apply in_app_or in Ha. destruct Ha as [Ha|[<-|[]]]; auto.
Qed.

Lemma py_max_first {A : Type} (key : A -> Z) (l : list A) (b : A) :
  py_max Z.ltb key l = Ok b -> first_max key l b.
Proof.
  destruct l as [|x xs]; [discriminate|]. unfold py_max, py_best. intros [= <-].
  apply (fold_max_first key xs [] x []); intros a [].
Qed.

Lemma first_max_ext {A : Type} (key key' : A -> Z) (l : list A) (b : A) :
  (forall a, key a = key' a) -> first_max key l b -> first_max key' l b.
Proof.
  intros He (xs & ys & Hl & Hx & Hy). exists xs, ys. split; [exact Hl|].
  split; intros a Ha; rewrite <- !He; auto.
Qed.

Lemma count_of_getPairStats (l : list Z) (q : pair) :
  count_of (getPairStats l None) q = occurrences l q.
Proof.
  unfold count_of. rewrite get_getPairStats_fresh. cbn [add_count].
  destruct (Z.eqb_spec (occurrences l q) 0); congruence.
Qed.

Lemma first_max_In {A : Type} (key : A -> Z) (l : list A) (b : A) :
  first_max key l b -> In b l /\ forall a, In a l -> key a <= key b.
Proof.
  intros (xs & ys & -> & Hx & Hy). split; [apply in_or_app; right; now left|].
  intros a Ha. apply in_app_or in Ha. destruct Ha as [Ha|[<-|Ha]].
  - specialize (Hx a Ha). lia.
  - lia.
  - now apply Hy.
Qed.

(** X5. A round of [BasicTokenizer.train] on a sequence of at least two
    elements never raises in [max]: it merges a pair that occurs most often
    in the current sequence, and among the pairs that occur equally often the
    one whose first occurrence comes first; the round records it under the id
    [256 + i] and goes on with the merged sequence. *)
Theorem train_round_most_frequent (i : Z) (rest : list Z) (byte_ids : list Z) (tk : tokenizer) :
  (2 <= length byte_ids)%nat ->
  exists p,
    first_max (occurrences byte_ids) (first_seen (adjacent byte_ids) []) p /\
    In p (adjacent byte_ids) /\
    (forall q, occurrences byte_ids q <= occurrences byte_ids p) /\
    BasicTokenizer.train_loop (i :: rest) byte_ids tk
    = match learn tk p (256 + i) with
      | (tk', Raise e) => (tk', Raise e)
      | (tk', Ok _) => BasicTokenizer.train_loop rest (merge byte_ids p (256 + i)) tk'
      end.
Proof.
  intros Hlen. cbn [BasicTokenizer.train_loop].
  destruct (py_max Z.ltb (count_of (getPairStats byte_ids None))
              (PyDict.keys (getPairStats byte_ids None))) as [p|e] eqn:Emax.
  - exists p. apply py_max_first in Emax.
    apply (first_max_ext _ (occurrences byte_ids)) in Emax;
      [|apply count_of_getPairStats].
    rewrite getPairStats_fold, keys_fold_count in Emax. cbn [PyDict.keys PyDict.empty map] in Emax.
    destruct (first_max_In _ _ _ Emax) as [Hin Hmax].
    assert (Hadj : In p (adjacent byte_ids)).
    { apply adjacent_keys. now rewrite getPairStats_fold, keys_fold_count. }
    split; [exact Emax|]. split; [exact Hadj|]. split; [|reflexivity].
    intros q. destruct (Z.eqb_spec (occurrences byte_ids q) 0) as [E0|E0].
    + rewrite E0. apply occurrences_nonneg.
    + apply Hmax. pose proof (occurrences_nonneg byte_ids q).
      rewrite occurrences_tally in *.
      assert (Hq : In q (adjacent byte_ids)) by (apply tally_pos_In; lia).
      apply adjacent_keys in Hq.
      now rewrite getPairStats_fold, keys_fold_count in Hq.
  - exfalso. unfold py_max, py_best in Emax.
    destruct (PyDict.keys (getPairStats byte_ids None)) as [|k ks] eqn:Ek; [|discriminate].
    destruct byte_ids as [|a [|b r]]; cbn [length] in Hlen; try lia.
    assert (Hin : In (a, b) (PyDict.keys (getPairStats (a :: b :: r) None)))
      by (apply adjacent_keys; now left).
    rewrite Ek in Hin. contradiction.
Qed.

Lemma train_round_most_frequent_witness :
  exists p,
    first_max (occurrences [1; 2; 1; 2; 3]) (first_seen (adjacent [1; 2; 1; 2; 3]) []) p /\
    In p (adjacent [1; 2; 1; 2; 3]).
Proof.
  destruct (train_round_most_frequent 0 [] [1; 2; 1; 2; 3] init) as (p & H1 & H2 & _).
  - cbn. lia.
  - exists p. split; assumption.
Defined.

(** ** What [encode] returns *)

Lemma bpe_result (merges : dict pair Z) (s out : list Z) :
  bpe merges s = Ok out ->
  (length out <= length s)%nat /\
  (forall q, In q (adjacent out) -> PyDict.get merges q = None) /\
  (forall x, In x out -> In x s \/ exists p, PyDict.get merges p = Some x).
Proof.
  remember (length s) as n eqn:Hn. revert s Hn out.
  induction n as [n IH] using lt_wf_ind. intros s -> out.
  rewrite bpe_unfold. unfold encode_round.
  destruct (Nat.leb_spec 2 (length s)) as [Hlen|Hlen].
  - destruct (select_spec merges s Hlen) as (p & -> & Hin & Hp). cbn [bind].
    unfold PyDict.mem, PyDict.getitem.
    destruct (PyDict.get merges p) as [idx|] eqn:Eg; cbn [negb bind].
    + intros Hout.
      pose proof (applyMerge_shorter s p idx Hin) as Hshort.
      rewrite <- merge_applyMerge in Hshort.
      destruct (IH _ Hshort (merge s p idx) eq_refl out Hout) as (Hl & Hfix & Hids).
      split; [lia|]. split; [exact Hfix|].
      intros x Hx. destruct (Hids x Hx) as [Hm|Hm]; [|now right].
      rewrite merge_applyMerge in Hm. apply applyMerge_In in Hm.
      destruct Hm as [->|Hm]; [right; now exists p | now left].
    + intros [= <-]. split; [lia|]. split; [exact Hp | now left].
  - intros [= <-]. split; [lia|]. split; [|now left].
    intros q Hq. destruct s as [|a [|b r]]; try contradiction. cbn [length] in Hlen. lia.
Qed.

Lemma bpe_fixed (merges : dict pair Z) (out : list Z) :
  (forall q, In q (adjacent out) -> PyDict.get merges q = None) ->
  bpe merges out = Ok out.
Proof.
  intros Hfix. rewrite bpe_unfold. unfold encode_round.
  destruct (Nat.leb_spec 2 (length out)) as [Hlen|Hlen]; [|reflexivity].
  destruct (select_spec merges out Hlen) as (p & -> & Hin & _). cbn [bind].
  unfold PyDict.mem. now rewrite (Hfix p Hin).
Qed.

(** X6. Whatever the merge table, the ids [BasicTokenizer.encode] returns
    are fully merged: no two neighbours form a pair of the merge table, so
    running the encode loop on them again changes nothing.  There are at most
    as many ids as the text has UTF-8 bytes, and each id is a byte of the
    text or the id of a merge rule. *)
Theorem encode_is_fully_merged (tk : tokenizer) (text : str) (ids : list Z) :
  BasicTokenizer.encode tk text = Ok ids ->
  exists byte_ids,
    Utf8.encode text = Ok byte_ids /\
    (length ids <= length byte_ids)%nat /\
    (forall q, In q (adjacent ids) -> PyDict.get (merge_dict tk) q = None) /\
    bpe (merge_dict tk) ids = Ok ids /\
    (forall x, In x ids ->
       In x byte_ids \/ exists p, PyDict.get (merge_dict tk) p = Some x).
Proof.
  unfold BasicTokenizer.encode.
  destruct (Utf8.encode text) as [byte_ids|e]; [|discriminate]. cbn [bind].
  intros Hb. exists byte_ids. split; [reflexivity|].
  destruct (bpe_result _ _ _ Hb) as (Hl & Hfix & Hids).
  split; [exact Hl|]. split; [exact Hfix|]. split; [now apply bpe_fixed | exact Hids].
Qed.

Lemma encode_is_fully_merged_witness :
  exists byte_ids,
    Utf8.encode [97; 98; 97; 98] = Ok byte_ids /\
    (length [256; 256] <= length byte_ids)%nat.
Proof.
  destruct (encode_is_fully_merged (with_merge init (97, 98) 256) [97; 98; 97; 98] [256; 256]
              eq_refl) as (b & H1 & H2 & _).
  exists b. split; assumption.
Defined.

(** ** The byte-level tokenizer *)

Lemma join_vocab_base (vocab : dict Z bytes) (bs : bytes) :
  (forall b, 0 <= b < 256 -> PyDict.get vocab b = Some [b]) ->
  Forall (fun b => 0 <= b < 256) bs ->
  BaseTokenizer.join_vocab vocab bs = Ok bs.
Proof.
  intros Hbase. induction 1 as [|b bs Hb _ IH]; [reflexivity|].
  cbn [BaseTokenizer.join_vocab]. unfold PyDict.getitem.
  rewrite (Hbase b Hb), IH. reflexivity.
Qed.

(** X7. The byte-level [BaseTokenizer.encode] and [decode] round-trip on a
    fresh tokenizer and after any number of [train] calls of either trainer:
    for a text of Unicode scalar values, [encode] returns its UTF-8 bytes,
    each in [0, 255], and [decode] of them is the text.  (Training never
    touches the 256 byte entries.) *)
Theorem base_roundtrip (findall : str -> list str) (tk : tokenizer) (T : str) :
  reachable findall tk ->
  Utf8.well_formed T ->
  exists byte_ids,
    BaseTokenizer.encode T = Ok byte_ids /\
    Forall (fun b => 0 <= b < 256) byte_ids /\
    BaseTokenizer.decode tk byte_ids = Ok T.
Proof.
  intros Hr Hwf. destruct (utf8_encode_ok T Hwf) as (bs & Hbs & Hrange & Hd).
  exists bs. split; [exact Hbs|]. split; [exact Hrange|].
  unfold BaseTokenizer.decode.
  rewrite (join_vocab_base _ bs (reachable_bytes findall tk Hr) Hrange).
  cbn [bind]. now rewrite Hd.
Qed.

Lemma base_roundtrip_witness :
  exists byte_ids,
    BaseTokenizer.encode [104; 105; 8364] = Ok byte_ids /\
    Forall (fun b => 0 <= b < 256) byte_ids /\
    BaseTokenizer.decode
      (fst (BasicTokenizer.train (fst (BasicTokenizer.train init [97; 97; 97] 257))
              [98; 98; 98] 257))
      byte_ids = Ok [104; 105; 8364].
Proof.
  apply (base_roundtrip words).
  - apply reach_basic. apply reach_basic. apply reach_init.
  - repeat constructor; apply scalar_dec; reflexivity.
Defined.

(** ** The size of a trained vocabulary *)

Lemma keys_base_vocab : PyDict.keys base_vocab = range 256.
Proof.
  unfold PyDict.keys, base_vocab. rewrite map_map. cbn [fst]. apply map_id.
Qed.

Lemma keys_extend_vocab (items : list (pair * Z)) :
  forall (v v' : dict Z bytes),
    extend_vocab items v = Ok v' ->
    NoDup (map snd items) ->
    (forall x, In x (map snd items) -> PyDict.get v x = None) ->
    PyDict.keys v' = PyDict.keys v ++ map snd items.
Proof.
  induction items as [|[k val] items IH]; intros v v' Hext Hnd Habs.
  - cbn in Hext. injection Hext as <-. cbn. now rewrite app_nil_r.
  - cbn [extend_vocab] in Hext.
    destruct (PyDict.getitem v (fst k)) as [l|e]; [|discriminate].
    destruct (PyDict.getitem v (snd k)) as [r|e]; [|discriminate].
    cbn [bind] in Hext. cbn [map snd] in *. inversion Hnd as [|? ? Hnotin Hnd']; subst.
    rewrite (IH _ _ Hext Hnd').
    + rewrite (set_absent v val (l ++ r)) by (apply Habs; now left).
      unfold PyDict.keys. rewrite map_app, <- app_assoc. reflexivity.
    + intros x Hx. rewrite get_set_neq; [apply Habs; now right|].
      intros ->. contradiction.
Qed.

Lemma seq_from (a n : nat) :
  map Z.of_nat (seq a n) = map (fun k => Z.of_nat a + Z.of_nat k) (seq 0 n).
Proof.
  revert a. induction n as [|n IH]; intros a; [reflexivity|].
  cbn [seq map]. f_equal; [lia|].
  rewrite IH, <- seq_shift, map_map. apply map_ext. intros k. lia.
Qed.

Lemma range_first_ids (n : nat) : range (256 + Z.of_nat n) = range 256 ++ first_ids n.
Proof.
  unfold range, first_ids.
  replace (Z.to_nat (256 + Z.of_nat n)) with (Z.to_nat 256 + n)%nat by lia.
  rewrite seq_app, map_app. f_equal. cbn [Nat.add]. rewrite seq_from.
  apply map_ext. intros k. lia.
Qed.

Lemma first_ids_NoDup (n : nat) : NoDup (first_ids n).
Proof.
  unfold first_ids. apply Injective_map_NoDup; [|apply seq_NoDup].
  intros x y Hxy. lia.
Qed.

Lemma training_vocab_keys (n : nat) (seqs : list (list Z)) (tk : tokenizer) :
  training n seqs tk ->
  PyDict.keys (vocab_dict tk) = range (256 + Z.of_nat n) /\
  length (merge_dict tk) = n.
Proof.
  intros Htr. split.
  - pose proof (tr_build _ _ _ Htr) as Hb. unfold _build_vocab_dict in Hb.
    pose proof (tr_ids _ _ _ Htr) as Hids. unfold rule_ids in Hids.
    fold (first_ids n) in Hids.
    rewrite (keys_extend_vocab _ _ _ Hb), keys_base_vocab, Hids, range_first_ids.
    + reflexivity.
    + rewrite Hids. apply first_ids_NoDup.
    + intros x Hx. rewrite Hids in Hx. unfold first_ids in Hx.
      apply in_map_iff in Hx. destruct Hx as (k & <- & _).
      rewrite get_base_vocab.
      destruct (Z.leb_spec 0 (256 + Z.of_nat k)), (Z.ltb_spec (256 + Z.of_nat k) 256);
        try lia; reflexivity.
  - pose proof (tr_ids _ _ _ Htr) as Hids. unfold rule_ids in Hids.
    apply (f_equal (@length Z)) in Hids. now rewrite !length_map, length_seq in Hids.
Qed.

Lemma train_outcome_size (text_ok : Prop) (vocab_size : Z) (r : tokenizer * result unit) :
  train_outcome text_ok vocab_size r -> snd r = Ok tt ->
  PyDict.keys (vocab_dict (fst r)) = range vocab_size /\
  Z.of_nat (length (vocab_dict (fst r))) = vocab_size /\
  Z.of_nat (length (merge_dict (fst r))) = vocab_size - 256.
Proof.
  intros (n & seqs & Htr & Hout) Hok. rewrite Hok in Hout. destruct Hout as [Hv Hn].
  destruct (training_vocab_keys n seqs _ Htr) as [Hk Hl].
  replace (256 + Z.of_nat n) with vocab_size in Hk by lia.
  split; [exact Hk|]. split; [|lia].
  apply (f_equal (@length Z)) in Hk. unfold PyDict.keys, range in Hk.
  rewrite !length_map, length_seq in Hk. lia.
Qed.

Section VocabularySize.
Variable findall : str -> list str.

(** X8. When [train(text, vocab_size)] returns normally on a fresh
    tokenizer, flat or segmented, the vocabulary holds exactly [vocab_size]
    entries, for the ids [0 .. vocab_size - 1] in this order, and the merge
    table holds [vocab_size - 256] rules. *)
Theorem trained_vocabulary_size (text : str) (vocab_size : Z) (r : tokenizer * result unit) :
  r = BasicTokenizer.train init text vocab_size \/
  r = AdvanceTokenizer.train findall init text vocab_size ->
  snd r = Ok tt ->
  PyDict.keys (vocab_dict (fst r)) = range vocab_size /\
  Z.of_nat (length (vocab_dict (fst r))) = vocab_size /\
  Z.of_nat (length (merge_dict (fst r))) = vocab_size - 256.
Proof.
  intros [->| ->].
  - apply (train_outcome_size _ _ _ (basic_train_outcome text vocab_size)).
  - apply (train_outcome_size _ _ _ (advance_train_outcome findall text vocab_size)).
Qed.

End VocabularySize.

Lemma trained_vocabulary_size_witness :
  Z.of_nat (length (vocab_dict (fst (BasicTokenizer.train init [97; 98; 97; 98] 258)))) = 258.
Proof.
  apply (trained_vocabulary_size words [97; 98; 97; 98] 258
           (BasicTokenizer.train init [97; 98; 97; 98] 258) (or_introl eq_refl) eq_refl).
Defined.

(** ** When [_build_vocab_dict] raises *)

Lemma extend_vocab_in_order (items : list (pair * Z)) :
  forall (vocab : dict Z bytes) (known : list Z),
    (forall x, existsb (Z.eqb x) known = true <-> PyDict.get vocab x <> None) ->
    match extend_vocab items vocab with
    | Ok _ => in_order known items = true
    | Raise e => e = KeyError /\ in_order known items = false
    end.
Proof.
  induction items as [|[k val] items IH]; intros vocab known Hk; [reflexivity|].
  cbn [extend_vocab in_order]. unfold PyDict.getitem.
  pose proof (Hk (fst k)) as H0. pose proof (Hk (snd k)) as H1.
  destruct (PyDict.get vocab (fst k)) as [l|]; cbn [bind].
  - destruct (PyDict.get vocab (snd k)) as [r|]; cbn [bind].
    + assert (E0 : existsb (Z.eqb (fst k)) known = true) by (apply H0; discriminate).
      assert (E1 : existsb (Z.eqb (snd k)) known = true) by (apply H1; discriminate).
      rewrite E0, E1. cbn [andb]. apply IH.
      intros x. cbn [existsb]. rewrite get_set.
      change (keqb val x) with (Z.eqb val x). rewrite (Z.eqb_sym x val).
      destruct (val =? x); cbn [orb]; [split; [discriminate | reflexivity] | apply Hk].
    + split; [reflexivity|].
      destruct (existsb (Z.eqb (snd k)) known); [exfalso; now apply H1|].
      now rewrite andb_false_r.
  - split; [reflexivity|].
    destruct (existsb (Z.eqb (fst k)) known); [exfalso; now apply H0 | reflexivity].
Qed.

Lemma build_vocab_order_error (merges : dict pair Z) (e : exn) :
  _build_vocab_dict merges = Raise e -> e = KeyError.
Proof.
  unfold _build_vocab_dict. generalize base_vocab as v.
  induction merges as [|[k val] items IH]; intros v; cbn [extend_vocab]; [discriminate|].
  unfold PyDict.getitem.
  destruct (PyDict.get v (fst k)); cbn [bind]; [|congruence].
  destruct (PyDict.get v (snd k)); cbn [bind]; [apply IH | congruence].
Qed.

Lemma build_vocab_needs_order_aux (merges : dict pair Z) :
  match _build_vocab_dict merges with
  | Ok _ => in_order (range 256) merges = true
  | Raise e => e = KeyError /\ in_order (range 256) merges = false
  end.
Proof.
  apply extend_vocab_in_order. intros x. rewrite get_base_vocab. split.
  - intros Hex. apply existsb_exists in Hex. destruct Hex as (y & Hy & Hxy).
    apply Z.eqb_eq in Hxy. subst y. apply In_range in Hy.
    destruct (Z.leb_spec 0 x), (Z.ltb_spec x 256); try lia. discriminate.
  - intros Hg. apply existsb_exists. exists x. split; [|apply Z.eqb_refl].
    apply In_range.
    destruct (Z.leb_spec 0 x), (Z.ltb_spec x 256); cbn [andb] in Hg; try lia; congruence.
Qed.

(** X9. [_build_vocab_dict] returns exactly when the merge rules are in
    dependency order, that is when both parts of every rule are bytes or ids
    of rules that come earlier in the dictionary; otherwise it raises
    [KeyError], and it raises nothing else. *)
Theorem build_vocab_needs_order (merges : dict pair Z) :
  match _build_vocab_dict merges with
  | Ok _ => in_order (range 256) merges = true
  | Raise e => e = KeyError /\ in_order (range 256) merges = false
  end.
Proof. exact (build_vocab_needs_order_aux merges). Qed.

(** ** What [load] does to the merge rules *)

Lemma last_rule_acc (lines : list (Z * Z * Z)) (k : pair) (acc : option Z) :
  fold_left (fun acc l => if pair_eqb (fst l) k then Some (snd l) else acc) lines acc
  = match last_rule lines k with
    | Some v => Some v
    | None => acc
    end.
Proof.
  unfold last_rule. revert acc. induction lines as [|l lines IH]; intros acc; [reflexivity|].
  cbn [fold_left]. rewrite IH. rewrite (IH (if pair_eqb (fst l) k then Some (snd l) else None)).
  destruct (fold_left _ lines None); [reflexivity|].
  now destruct (pair_eqb (fst l) k).
Qed.

Lemma get_load_fold (lines : list (Z * Z * Z)) (d : dict pair Z) (k : pair) :
  PyDict.get
    (fold_left (fun d l => PyDict.set d (fst (fst l), snd (fst l)) (snd l)) lines d) k
  = match last_rule lines k with
    | Some v => Some v
    | None => PyDict.get d k
    end.
Proof.
  revert d. induction lines as [|[[a b] v] lines IH]; intros d; [reflexivity|].
  cbn [fold_left fst snd]. rewrite IH. unfold last_rule at 2. cbn [fold_left fst snd].
  rewrite last_rule_acc. destruct (last_rule lines k); [reflexivity|].
  rewrite get_set. change (keqb (a, b) k) with (pair_eqb (a, b) k).
  now destruct (pair_eqb (a, b) k).
Qed.

(** X10. [load] adds to the merge rules the tokenizer already has, it does
    not replace them: afterwards a pair named by a line has the id of the last
    line that names it, and every other pair has the id it had before.  When
    the rebuild of the vocabulary succeeds the vocabulary is the rebuilt one;
    when it raises, the exception is [KeyError], the rules read are already
    stored and the vocabulary is the old one. *)
Theorem load_adds_rules (tk : tokenizer) (lines : list (Z * Z * Z)) :
  (forall k,
      PyDict.get (merge_dict (fst (BaseTokenizer.load tk lines))) k
      = match last_rule lines k with
        | Some v => Some v
        | None => PyDict.get (merge_dict tk) k
        end) /\
  match snd (BaseTokenizer.load tk lines) with
  | Ok _ =>
      _build_vocab_dict (merge_dict (fst (BaseTokenizer.load tk lines)))
      = Ok (vocab_dict (fst (BaseTokenizer.load tk lines)))
  | Raise e =>
      e = KeyError /\
      vocab_dict (fst (BaseTokenizer.load tk lines)) = vocab_dict tk
  end.
Proof.
  unfold BaseTokenizer.load.
  set (merges := fold_left (fun d l => PyDict.set d (fst (fst l), snd (fst l)) (snd l))
                   lines (merge_dict tk)).
  pose proof (build_vocab_order_error merges) as Herr.
  destruct (_build_vocab_dict merges) as [v|e] eqn:Eb; cbn [fst snd merge_dict vocab_dict].
  - split; [intros k; apply get_load_fold | exact Eb].
  - split; [intros k; apply get_load_fold|]. split; [now apply Herr | reflexivity].
Qed.

(** ** One segment *)

(** X11. On a text that the pattern matches as one segment, the segmented
    tokenizer is the flat one: [train] leaves the same tokenizer with the
    same outcome and [encode] returns the same ids. *)
Theorem single_segment_is_flat (findall : str -> list str) (tk : tokenizer)
    (text : str) (vocab_size : Z) :
  findall text = [text] ->
  AdvanceTokenizer.train findall tk text vocab_size = BasicTokenizer.train tk text vocab_size /\
  AdvanceTokenizer.encode findall tk text = BasicTokenizer.encode tk text.
Proof.
  intros Hone. unfold AdvanceTokenizer.train, BasicTokenizer.train,
    AdvanceTokenizer.encode, BasicTokenizer.encode.
  rewrite Hone. cbn [mapM].
  destruct (Utf8.encode text) as [byte_ids|e]; cbn [bind].
  - rewrite flat_train_loop. split; [reflexivity|].
    cbn [AdvanceTokenizer.encode_subwords].
    destruct (bpe (merge_dict tk) byte_ids); reflexivity.
  - split; reflexivity.
Qed.

Lemma single_segment_is_flat_witness :
  AdvanceTokenizer.train (fun t => [t]) init [97; 98; 97; 98] 258
  = BasicTokenizer.train init [97; 98; 97; 98] 258.
Proof.
  exact (proj1 (single_segment_is_flat (fun t => [t]) init [97; 98; 97; 98] 258 eq_refl)).
Defined.

(** ** Training a trained tokenizer again *)






(** ** Training for a larger vocabulary *)

Lemma train_run_loop (idxs : list Z) :
  forall (bytes_list : list (list Z)) (tk : tokenizer),
    AdvanceTokenizer.train_loop idxs bytes_list tk
    = (fst (fst (train_run idxs bytes_list tk)), snd (train_run idxs bytes_list tk)).
Proof.
  induction idxs as [|i idxs IH]; intros bytes_list tk; [reflexivity|].
  cbn [AdvanceTokenizer.train_loop train_run].
  destruct (py_max _ _ _) as [p|e]; [|reflexivity].
  destruct (learn tk p (256 + i)) as [tk' [[]|e]]; [apply IH | reflexivity].
Qed.

Lemma train_run_app (xs ys : list Z) :
  forall (bytes_list : list (list Z)) (tk : tokenizer),
    train_run (xs ++ ys) bytes_list tk
    = match train_run xs bytes_list tk with
      | (tk', bytes_list', Ok _) => train_run ys bytes_list' tk'
      | (tk', bytes_list', Raise e) => (tk', bytes_list', Raise e)
      end.
Proof.
  induction xs as [|i xs IH]; intros bytes_list tk; [reflexivity|].
  cbn [app train_run].
  destruct (py_max _ _ _) as [p|e]; [|reflexivity].
  destruct (learn tk p (256 + i)) as [tk' [[]|e]]; [apply IH | reflexivity].
Qed.

Lemma range_succ (n : Z) : 0 <= n -> range (n + 1) = range n ++ [n].
Proof.
  intros Hn. unfold range.
  replace (Z.to_nat (n + 1)) with (S (Z.to_nat n)) by lia.
  rewrite seq_S, map_app. cbn [map Nat.add]. f_equal. f_equal. lia.
Qed.

Lemma train_loop_succ (n : Z) (bytes_list : list (list Z)) (tk : tokenizer) :
  0 <= n ->
  AdvanceTokenizer.train_loop (range (n + 1)) bytes_list tk
  = match train_run (range n) bytes_list tk with
    | (tk', bytes_list', Ok _) => AdvanceTokenizer.train_loop [n] bytes_list' tk'
    | (tk', bytes_list', Raise e) => (tk', Raise e)
    end.
Proof.
  intros Hn. rewrite train_run_loop, range_succ, train_run_app by exact Hn.
  destruct (train_run (range n) bytes_list tk) as [[tk' bl'] [[]|e]]; [|reflexivity].
  now rewrite <- train_run_loop.
Qed.

Lemma train_run_single (idxs : list Z) :
  forall (byte_ids : list Z) (tk : tokenizer),
    exists byte_ids', snd (fst (train_run idxs [byte_ids] tk)) = [byte_ids'].
Proof.
  induction idxs as [|i idxs IH]; intros byte_ids tk; [now exists byte_ids|].
  cbn [train_run].
  destruct (py_max _ _ _) as [p|e]; [|now exists byte_ids].
  destruct (learn tk p (256 + i)) as [tk' [[]|e]]; cbn [map]; [apply IH|].
  now exists (merge byte_ids p (256 + i)).
Qed.

Section LargerVocabulary.
Variable findall : str -> list str.

(** X13. Training for [vocab_size + 1] does what training for [vocab_size]
    does and then one more round, started from the tokenizer the shorter
    training leaves: when the shorter training returns, the longer one is one
    round of the loop with the index [vocab_size - 256] on that tokenizer and
    some working sequences; when the shorter one raises, the longer one
    raises the same exception and leaves the same tokenizer. *)
Theorem train_one_more_round (tk : tokenizer) (text : str) (vocab_size : Z) :
  256 <= vocab_size ->
  match BasicTokenizer.train tk text vocab_size with
  | (tk1, Ok _) =>
      exists byte_ids,
        BasicTokenizer.train tk text (vocab_size + 1)
        = BasicTokenizer.train_loop [vocab_size - 256] byte_ids tk1
  | (tk1, Raise e) => BasicTokenizer.train tk text (vocab_size + 1) = (tk1, Raise e)
  end /\
  match AdvanceTokenizer.train findall tk text vocab_size with
  | (tk1, Ok _) =>
      exists bytes_list,
        AdvanceTokenizer.train findall tk text (vocab_size + 1)
        = AdvanceTokenizer.train_loop [vocab_size - 256] bytes_list tk1
  | (tk1, Raise e) =>
      AdvanceTokenizer.train findall tk text (vocab_size + 1) = (tk1, Raise e)
  end.
Proof.
  intros Hv. unfold BasicTokenizer.train, AdvanceTokenizer.train.
  destruct (Z.leb_spec 256 vocab_size); [|lia].
  destruct (Z.leb_spec 256 (vocab_size + 1)); [|lia]. cbn [negb].
  replace (vocab_size + 1 - 256) with (vocab_size - 256 + 1) by lia.
  set (n := vocab_size - 256). assert (Hn : 0 <= n) by (unfold n; lia).
  split.
  - destruct (Utf8.encode text) as [byte_ids|e]; [|reflexivity].
    pose proof (flat_train_loop (range n) byte_ids tk) as H1.
    rewrite train_run_loop in H1.
    pose proof (flat_train_loop (range (n + 1)) byte_ids tk) as H2.
    rewrite train_loop_succ in H2 by exact Hn.
    rewrite H1, H2. clear H1 H2.
    destruct (train_run_single (range n) byte_ids tk) as (b' & Hb').
    match goal with
    | |- context [train_run ?a ?b ?c] => set (run := train_run a b c) in *
    end.
    change (snd (fst run) = [b']) in Hb'.
    destruct run as [[tk' bl'] [[]|e]];
      cbn [fst snd] in *; cbv beta iota; [|reflexivity].
    subst bl'. exists b'. now rewrite flat_train_loop.
  - destruct (mapM Utf8.encode (findall text)) as [bytes_list|e]; [|reflexivity].
    rewrite (train_loop_succ n bytes_list tk Hn), train_run_loop.
    destruct (train_run (range n) bytes_list tk) as [[tk' bl'] [[]|e]];
      cbn [fst snd]; cbv beta iota; [|reflexivity].
    now exists bl'.
Qed.

End LargerVocabulary.

Lemma train_one_more_round_witness :
  exists byte_ids,
    BasicTokenizer.train init [97; 98; 97; 98] (257 + 1)
    = BasicTokenizer.train_loop [257 - 256] byte_ids
        (with_vocab (with_merge init (97, 98) 256) 256 [97; 98]).
Proof.
  exact (proj1 (train_one_more_round words init [97; 98; 97; 98] 257 ltac:(lia))).
Defined.

(** ** Encoding with one more merge rule *)

Lemma NoDup_snd_inj (d : dict pair Z) (k1 k2 : pair) (v : Z) :
  NoDup (map snd d) -> In (k1, v) d -> In (k2, v) d -> k1 = k2.
Proof.
  induction d as [|[k w] d IH]; intros Hnd H1 H2; [contradiction|].
  cbn [map snd] in Hnd. inversion Hnd as [|? ? Hnotin Hnd']; subst.
  destruct H1 as [E1|H1], H2 as [E2|H2].
  - congruence.
  - exfalso. apply Hnotin. apply (in_map snd) in H2. cbn [snd] in H2. congruence.
  - exfalso. apply Hnotin. apply (in_map snd) in H1. cbn [snd] in H1. congruence.
  - now apply IH.
Qed.

Lemma bpe_extend (md : dict pair Z) (p : pair) (z : Z) :
  PyDict.get md p = None -> fst p < z -> snd p < z ->
  (forall k i, In (k, i) md -> fst k < i /\ snd k < i /\ i < z) ->
  NoDup (map snd md) ->
  forall t out,
    (forall x, In x t -> x < z) ->
    bpe md t = Ok out ->
    bpe (PyDict.set md p z) t = Ok (applyMerge out p z).
Proof.
  intros Hp Hp0 Hp1 Hparts Hnd t.
  assert (Hget : forall k, PyDict.get (PyDict.set md p z) k
                           = if pair_eqb p k then Some z else PyDict.get md k).
  { intros k. rewrite get_set. reflexivity. }
  remember (length t) as n eqn:Hn. revert t Hn.
  induction n as [n IH] using lt_wf_ind. intros t -> out Hsym.
  rewrite (bpe_unfold md t), (bpe_unfold (PyDict.set md p z) t). unfold encode_round.
  destruct (Nat.leb_spec 2 (length t)) as [Hlen|Hlen].
  2:{ intros [= <-]. destruct t as [|a [|b r]]; try reflexivity. cbn [length] in Hlen. lia. }
  destruct (select_spec md t Hlen) as (q & -> & Hinq & Hq).
  destruct (select_spec (PyDict.set md p z) t Hlen) as (q' & -> & Hinq' & Hq').
  cbn [bind]. unfold PyDict.mem, PyDict.getitem.
  destruct (PyDict.get md q) as [idx|] eqn:Gq; cbn [negb bind].
  - assert (Gq2 : PyDict.get (PyDict.set md p z) q = Some idx).
    { rewrite Hget. destruct (pair_eqb p q) eqn:E; [|exact Gq].
      apply pair_eqb_eq in E. subst q. congruence. }
    destruct (PyDict.get (PyDict.set md p z) q') as [idx'|] eqn:Gq'; cbn [negb bind].
    + destruct Hq' as (_ & _ & Hleast').
      pose proof (Hleast' q idx Hinq Gq2) as Hle'.
      pose proof (Hparts q idx (get_In _ _ _ Gq)) as (_ & _ & Hidx).
      rewrite Hget in Gq'.
      destruct (pair_eqb p q') eqn:E; [injection Gq' as <-; lia|].
      destruct Hq as (_ & _ & Hleast).
      pose proof (Hleast q' idx' Hinq' Gq') as Hle.
      assert (idx' = idx) by lia. subst idx'.
      assert (q' = q)
        by (apply (NoDup_snd_inj md q' q idx Hnd); now apply get_In).
      subst q'. intros Hout.
      apply (IH (length (merge t q idx))); [|reflexivity| |exact Hout].
      * rewrite merge_applyMerge. now apply applyMerge_shorter.
      * intros x Hx. rewrite merge_applyMerge in Hx. apply applyMerge_In in Hx.
        destruct Hx as [->|Hx]; [exact Hidx | now apply Hsym].
    + rewrite (Hq' q Hinq) in Gq2. discriminate.
  - intros [= <-].
    destruct (PyDict.get (PyDict.set md p z) q') as [idx'|] eqn:Gq'; cbn [negb bind].
    + rewrite Hget in Gq'. destruct (pair_eqb p q') eqn:E.
      2:{ rewrite (Hq q' Hinq') in Gq'. discriminate. }
      apply pair_eqb_eq in E. subst q'. injection Gq' as <-.
      rewrite merge_applyMerge. apply bpe_fixed.
      intros r Hr. apply adjacent_applyMerge in Hr. rewrite Hget.
      destruct (pair_eqb p r) eqn:Er.
      * apply pair_eqb_eq in Er. subst r. destruct Hr as [[Hr|Hr]|[_ Hr]]; [lia|lia|congruence].
      * destruct Hr as [Hr|[Hr _]]; [|now apply Hq].
        destruct (PyDict.get md r) as [i|] eqn:Gr; [|reflexivity].
        pose proof (Hparts r i (get_In _ _ _ Gr)). lia.
    + f_equal. symmetry. apply applyMerge_absent. intros Hin.
      pose proof (Hq' p Hin) as Hnone. rewrite Hget in Hnone.
      rewrite (proj2 (pair_eqb_eq p p) eq_refl) in Hnone. discriminate.
Qed.

Lemma train_run_training (m : nat) :
  forall (n : nat) (seqs : list (list Z)) (tk : tokenizer),
    training n seqs tk ->
    exists n',
      training n' (snd (fst (train_run (map Z.of_nat (seq n m)) seqs tk)))
               (fst (fst (train_run (map Z.of_nat (seq n m)) seqs tk))) /\
      (snd (train_run (map Z.of_nat (seq n m)) seqs tk) = Ok tt -> n' = (n + m)%nat).
Proof.
  induction m as [|m IH]; intros n seqs tk Htr.
  - exists n. cbn. split; [exact Htr | lia].
  - cbn [seq map train_run].
    pose proof (max_pair_spec seqs) as Hmax. cbn zeta in Hmax.
    destruct (py_max _ _ _) as [p|e].
    + destruct (learn_step n seqs tk p Htr Hmax) as (tk' & -> & _ & Htr').
      destruct (IH (S n) _ tk' Htr') as (n' & Hinv & Hout).
      exists n'. split; [exact Hinv|]. intros Hok. specialize (Hout Hok). lia.
    + exists n. cbn [fst snd]. split; [exact Htr | discriminate].
Qed.

Lemma one_more_rule (segs : list (list Z)) (n : Z) (tk tk' : tokenizer) :
  (forall s x, In s segs -> In x s -> 0 <= x < 256) ->
  0 <= n ->
  AdvanceTokenizer.train_loop (range n) segs init = (tk, Ok tt) ->
  AdvanceTokenizer.train_loop (range (n + 1)) segs init = (tk', Ok tt) ->
  exists p,
    merge_dict tk' = merge_dict tk ++ [(p, 256 + n)] /\
    forall t out,
      (forall x, In x t -> x < 256 + n) ->
      bpe (merge_dict tk) t = Ok out ->
      bpe (merge_dict tk') t = Ok (applyMerge out p (256 + n)).
Proof.
  intros Hb Hn H1 H2.
  rewrite train_loop_succ in H2 by exact Hn. rewrite train_run_loop in H1.
  destruct (train_run_training (Z.to_nat n) 0 segs init (init_training segs Hb))
    as (n' & Htr & Hn').
  fold (range n) in Htr, Hn'.
  destruct (train_run (range n) segs init) as [[tk0 seqsF] r].
  cbn [fst snd] in *. injection H1 as -> ->. specialize (Hn' eq_refl).
  assert (Hz : 256 + n = 256 + Z.of_nat n') by lia.
  cbn [AdvanceTokenizer.train_loop] in H2.
  pose proof (max_pair_spec seqsF) as Hmax. cbn zeta in Hmax.
  destruct (py_max _ _ _) as [p|e]; [|discriminate].
  destruct (learn_step n' seqsF tk p Htr Hmax) as (tk1 & Hlearn & Hmd & _).
  rewrite Hz in *. rewrite Hlearn in H2. injection H2 as <-.
  exists p. split; [exact Hmd|].
  destruct Hmax as (s & Hs & Hp).
  pose proof (tr_fresh _ _ _ Htr s p Hs Hp) as Hfresh.
  destruct (adjacent_In s p Hp) as [Hp0 Hp1].
  pose proof (tr_symbols _ _ _ Htr s _ Hs Hp0) as B0.
  pose proof (tr_symbols _ _ _ Htr s _ Hs Hp1) as B1.
  intros t out Ht Hout. rewrite Hmd.
  rewrite <- (set_absent (merge_dict tk) p (256 + Z.of_nat n') Hfresh).
  apply bpe_extend; try assumption; try lia.
  - intros k i Hk. pose proof (tr_parts _ _ _ Htr k i Hk). lia.
  - pose proof (tr_ids _ _ _ Htr) as Hids. unfold rule_ids in Hids. rewrite Hids.
    apply first_ids_NoDup.
Qed.

(** X14. One more merge never lengthens an encoding.  When the flat
    [train] returns for [vocab_size] and for [vocab_size + 1] on the same
    text (each on a fresh tokenizer), the larger merge table is the smaller
    one followed by one rule with the id [vocab_size], and encoding a text
    with the larger table gives what encoding with the smaller one gives,
    with that one rule applied to it by [merge]: never more ids. *)
Theorem encode_with_one_more_merge (text : str) (vocab_size : Z) (tk tk' : tokenizer) :
  BasicTokenizer.train init text vocab_size = (tk, Ok tt) ->
  BasicTokenizer.train init text (vocab_size + 1) = (tk', Ok tt) ->
  exists p,
    merge_dict tk' = merge_dict tk ++ [(p, vocab_size)] /\
    forall T ids,
      BasicTokenizer.encode tk T = Ok ids ->
      BasicTokenizer.encode tk' T = Ok (merge ids p vocab_size) /\
      (length (merge ids p vocab_size) <= length ids)%nat.
Proof.
  unfold BasicTokenizer.train.
  destruct (Z.leb_spec 256 vocab_size) as [Hv|Hv]; [|discriminate].
  destruct (Z.leb_spec 256 (vocab_size + 1)); [|lia]. cbn [negb].
  replace (vocab_size + 1 - 256) with (vocab_size - 256 + 1) by lia.
  destruct (Utf8.encode text) as [byte_ids|e] eqn:Et; [|discriminate].
  rewrite !flat_train_loop. intros H1 H2.
  destruct (one_more_rule [byte_ids] (vocab_size - 256) tk tk') as (p & Hmd & Hext);
    try assumption; try lia.
  { intros s x [<-|[]] Hx. apply utf8_encode_inv in Et. destruct Et as [_ Hr].
    rewrite Forall_forall in Hr. now apply Hr. }
  replace (256 + (vocab_size - 256)) with vocab_size in * by lia.
  exists p. split; [exact Hmd|].
  intros T ids. unfold BasicTokenizer.encode.
  destruct (Utf8.encode T) as [bs|e] eqn:ET; [|discriminate]. cbn [bind].
  intros Hids. rewrite merge_applyMerge. split; [|apply applyMerge_length].
  apply Hext; [|exact Hids].
  intros x Hx. apply utf8_encode_inv in ET. destruct ET as [_ Hr].
  rewrite Forall_forall in Hr. specialize (Hr x Hx). lia.
Qed.

Lemma encode_with_one_more_merge_witness :
  exists p,
    merge_dict (fst (BasicTokenizer.train init [97; 98; 97; 98; 99] (257 + 1)))
    = merge_dict (fst (BasicTokenizer.train init [97; 98; 97; 98; 99] 257)) ++ [(p, 257)].
Proof.
  destruct (encode_with_one_more_merge [97; 98; 97; 98; 99] 257
              (fst (BasicTokenizer.train init [97; 98; 97; 98; 99] 257))
              (fst (BasicTokenizer.train init [97; 98; 97; 98; 99] (257 + 1)))
              eq_refl eq_refl) as (p & Hmd & _).
  exists p. exact Hmd.
Defined.

Lemma mapM_bpe_extend (md md' : dict pair Z) (p : pair) (z : Z) (bl outs : list (list Z)) :
  (forall t out, (forall x, In x t -> x < z) -> bpe md t = Ok out ->
                 bpe md' t = Ok (applyMerge out p z)) ->
  (forall s x, In s bl -> In x s -> x < z) ->
  mapM (bpe md) bl = Ok outs ->
  mapM (bpe md') bl = Ok (map (fun o => applyMerge o p z) outs).
Proof.
  intros Hext. revert outs. induction bl as [|s bl IH]; intros outs Hb; cbn [mapM].
  - intros [= <-]. reflexivity.
  - destruct (bpe md s) as [o|e] eqn:Es; [|discriminate]. cbn [bind].
    destruct (mapM (bpe md) bl) as [os|e]; [|discriminate]. cbn [bind].
    intros [= <-].
    rewrite (Hext s o (fun x Hx => Hb s x (or_introl eq_refl) Hx) Es). cbn [bind].
    rewrite (IH os (fun s' x Hs' => Hb s' x (or_intror Hs')) eq_refl). reflexivity.
Qed.

Lemma concat_applyMerge_length (outs : list (list Z)) (p : pair) (z : Z) :
  (length (concat (map (fun o => applyMerge o p z) outs)) <= length (concat outs))%nat.
Proof.
  induction outs as [|o outs IH]; [reflexivity|].
  cbn [map concat]. rewrite !length_app.
  pose proof (applyMerge_length o p z). lia.
Qed.

Section SegmentedLargerVocabulary.
Variable findall : str -> list str.

(** X15. The same for the segmented tokenizer: when [train] returns for
    [vocab_size] and for [vocab_size + 1] on the same text, the larger merge
    table is the smaller one followed by one rule with the id [vocab_size],
    and the larger table encodes every text into the per-segment encodings of
    the smaller one with that rule applied inside each segment, so into no
    more ids. *)
Theorem segmented_encode_with_one_more_merge (text : str) (vocab_size : Z)
    (tk tk' : tokenizer) :
  AdvanceTokenizer.train findall init text vocab_size = (tk, Ok tt) ->
  AdvanceTokenizer.train findall init text (vocab_size + 1) = (tk', Ok tt) ->
  exists p,
    merge_dict tk' = merge_dict tk ++ [(p, vocab_size)] /\
    forall T ids,
      AdvanceTokenizer.encode findall tk T = Ok ids ->
      exists ids',
        AdvanceTokenizer.encode findall tk' T = Ok ids' /\
        (length ids' <= length ids)%nat.
Proof.
  unfold AdvanceTokenizer.train.
  destruct (Z.leb_spec 256 vocab_size) as [Hv|Hv]; [|discriminate].
  destruct (Z.leb_spec 256 (vocab_size + 1)); [|lia]. cbn [negb].
  replace (vocab_size + 1 - 256) with (vocab_size - 256 + 1) by lia.
  destruct (mapM Utf8.encode (findall text)) as [bytes_list|e] eqn:Et; [|discriminate].
  intros H1 H2.
  destruct (one_more_rule bytes_list (vocab_size - 256) tk tk') as (p & Hmd & Hext);
    try assumption; try lia.
  { now apply (mapM_encode_inv (findall text)). }
  replace (256 + (vocab_size - 256)) with vocab_size in * by lia.
  exists p. split; [exact Hmd|].
  intros T ids. rewrite !segmented_encode_unfold.
  destruct (mapM Utf8.encode (findall T)) as [bl|e] eqn:ET; [|discriminate]. cbn [bind].
  destruct (mapM (bpe (merge_dict tk)) bl) as [outs|e] eqn:Eo; [|discriminate]. cbn [bind].
  intros [= <-].
  rewrite (mapM_bpe_extend _ _ p vocab_size bl outs Hext); [| |exact Eo].
  - cbn [bind]. eexists. split; [reflexivity | apply concat_applyMerge_length].
  - intros s x Hs Hx. pose proof (mapM_encode_inv _ _ ET s x Hs Hx). lia.
Qed.

End SegmentedLargerVocabulary.

Lemma segmented_encode_with_one_more_merge_witness :
  exists p,
    merge_dict (fst (AdvanceTokenizer.train words init [97; 98; 32; 97; 98; 99] (257 + 1)))
    = merge_dict (fst (AdvanceTokenizer.train words init [97; 98; 32; 97; 98; 99] 257))
      ++ [(p, 257)].
Proof.
  destruct (segmented_encode_with_one_more_merge words [97; 98; 32; 97; 98; 99] 257
              (fst (AdvanceTokenizer.train words init [97; 98; 32; 97; 98; 99] 257))
              (fst (AdvanceTokenizer.train words init [97; 98; 32; 97; 98; 99] (257 + 1)))
              eq_refl eq_refl) as (p & Hmd & _).
  exists p. exact Hmd.
Defined.

(** ** The ids of a trained tokenizer *)

Lemma trained_ids_known (n : nat) (seqs : list (list Z)) (tk : tokenizer)
    (s out : list Z) :
  training n seqs tk ->
  (forall x, In x s -> 0 <= x < 256) ->
  bpe (merge_dict tk) s = Ok out ->
  forall id, In id out ->
    0 <= id < 256 + Z.of_nat n /\ PyDict.get (vocab_dict tk) id <> None.
Proof.
  intros Htr Hs Hout id Hid.
  assert (Hr : 0 <= id < 256 + Z.of_nat n).
  { destruct (bpe_result _ _ _ Hout) as (_ & _ & Hids).
    destruct (Hids id Hid) as [Hin|(p & Hp)].
    - specialize (Hs id Hin). lia.
    - apply get_In in Hp. pose proof (tr_parts _ _ _ Htr p id Hp). lia. }
  split; [exact Hr | now apply (tr_domain _ _ _ Htr)].
Qed.

Lemma mapM_bpe_In (md : dict pair Z) (bl outs : list (list Z)) (id : Z) :
  mapM (bpe md) bl = Ok outs -> In id (concat outs) ->
  exists s out, In s bl /\ bpe md s = Ok out /\ In id out.
Proof.
  revert outs. induction bl as [|s bl IH]; intros outs; cbn [mapM].
  - intros [= <-] [].
  - destruct (bpe md s) as [o|e] eqn:Es; [|discriminate]. cbn [bind].
    destruct (mapM (bpe md) bl) as [os|e]; [|discriminate]. cbn [bind].
    intros [= <-]. cbn [concat]. intros Hin. apply in_app_or in Hin.
    destruct Hin as [Hin|Hin].
    + exists s, o. split; [now left | auto].
    + destruct (IH os eq_refl Hin) as (s' & o' & Hs' & Ho' & Hi').
      exists s', o'. split; [now right | auto].
Qed.

Section TrainedIds.
Variable findall : str -> list str.

(** X16. Every id that [encode] returns on a tokenizer trained from fresh
    (flat or segmented, whether [train] returned or raised) has an entry in
    the vocabulary, and when [train(text, vocab_size)] returned it lies in
    [0, vocab_size). *)
Theorem encode_ids_below_vocab_size (text : str) (vocab_size : Z) (T : str) (ids : list Z) :
  (BasicTokenizer.encode (fst (BasicTokenizer.train init text vocab_size)) T = Ok ids ->
   forall id, In id ids ->
     PyDict.get (vocab_dict (fst (BasicTokenizer.train init text vocab_size))) id <> None /\
     (snd (BasicTokenizer.train init text vocab_size) = Ok tt -> 0 <= id < vocab_size)) /\
  (AdvanceTokenizer.encode findall
     (fst (AdvanceTokenizer.train findall init text vocab_size)) T = Ok ids ->
   forall id, In id ids ->
     PyDict.get (vocab_dict (fst (AdvanceTokenizer.train findall init text vocab_size))) id
       <> None /\
     (snd (AdvanceTokenizer.train findall init text vocab_size) = Ok tt ->
      0 <= id < vocab_size)).
Proof.
  split.
  - destruct (basic_train_outcome text vocab_size) as (n & seqs & Htr & Hout).
    unfold BasicTokenizer.encode.
    destruct (Utf8.encode T) as [bs|e] eqn:ET; [|discriminate]. cbn [bind].
    intros Hb id Hid.
    apply utf8_encode_inv in ET. destruct ET as [_ Hr]. rewrite Forall_forall in Hr.
    destruct (trained_ids_known n seqs _ bs ids Htr Hr Hb id Hid) as [Hlt Hv].
    split; [exact Hv|]. intros Hok. rewrite Hok in Hout. lia.
  - destruct (advance_train_outcome findall text vocab_size) as (n & seqs & Htr & Hout).
    rewrite segmented_encode_unfold.
    destruct (mapM Utf8.encode (findall T)) as [bl|e] eqn:ET; [|discriminate]. cbn [bind].
    destruct (mapM (bpe _) bl) as [outs|e] eqn:Eo; [|discriminate]. cbn [bind].
    intros [= <-] id Hid.
    destruct (mapM_bpe_In _ _ _ _ Eo Hid) as (s & out & Hs & Ho & Hi).
    destruct (trained_ids_known n seqs _ s out Htr
                (fun x Hx => mapM_encode_inv _ _ ET s x Hs Hx) Ho id Hi) as [Hlt Hv].
    split; [exact Hv|]. intros Hok. rewrite Hok in Hout. lia.
Qed.

(** X17. However [train] on a fresh tokenizer ends, flat or segmented, the
    merge rules it leaves are pairwise distinct pairs, both parts of every
    rule are ids smaller than the rule's own id, and the rules stand in
    dependency order, as [_build_vocab_dict] needs them. *)
Theorem learned_rules_are_ordered (text : str) (vocab_size : Z) (tk : tokenizer) :
  tk = fst (BasicTokenizer.train init text vocab_size) \/
  tk = fst (AdvanceTokenizer.train findall init text vocab_size) ->
  NoDup (PyDict.keys (merge_dict tk)) /\
  (forall p idx, PyDict.get (merge_dict tk) p = Some idx ->
     0 <= fst p < idx /\ 0 <= snd p < idx /\ 256 <= idx) /\
  in_order (range 256) (merge_dict tk) = true.
Proof.
  intros Htk.
  assert (Hex : exists n seqs, training n seqs tk).
  { destruct Htk as [->| ->].
    - destruct (basic_train_outcome text vocab_size) as (n & seqs & Htr & _). eauto.
    - destruct (advance_train_outcome findall text vocab_size) as (n & seqs & Htr & _). eauto. }
  destruct Hex as (n & seqs & Htr).
  split; [apply (tr_nodup _ _ _ Htr)|]. split.
  - intros p idx Hp.
    destruct (training_vocabulary_invariant n seqs tk Htr) as ((_ & Hrule & _) & _).
    destruct (Hrule p idx Hp) as [H256 _].
    pose proof (tr_parts _ _ _ Htr p idx (get_In _ _ _ Hp)). lia.
  - pose proof (build_vocab_needs_order_aux (merge_dict tk)) as Ho.
    rewrite (tr_build _ _ _ Htr) in Ho. exact Ho.
Qed.

End TrainedIds.

Lemma learned_rules_are_ordered_witness :
  in_order (range 256)
    (merge_dict (fst (BasicTokenizer.train init [97; 98; 97; 98; 99] 259))) = true.
Proof.
  apply (learned_rules_are_ordered words [97; 98; 97; 98; 99] 259). now left.
Defined.

(** ** Decoding concatenated encodings *)

Lemma encode_join (tk : tokenizer) (T : str) (ids : list Z) :
  consistent tk ->
  BasicTokenizer.encode tk T = Ok ids ->
  exists bs, Utf8.encode T = Ok bs /\
             BaseTokenizer.join_vocab (vocab_dict tk) ids = Ok bs.
Proof.
  intros Hc. unfold BasicTokenizer.encode.
  destruct (Utf8.encode T) as [bs|e] eqn:ET; [|discriminate]. cbn [bind].
  intros Hb. exists bs. split; [reflexivity|].
  destruct (utf8_encode_inv _ _ ET) as [_ Hr].
  destruct (bpe_join tk bs bs Hc (join_vocab_bytes tk bs Hc Hr)) as (out & Hout & Hj).
  congruence.
Qed.

(** X18. Encodings can be concatenated: on a flat tokenizer trained from
    fresh, when [encode(A)] and [encode(B)] return, [decode] of the two id
    lists put together is the text [A + B], although [encode(A + B)] may
    merge across the seam and differ from the concatenation. *)
Theorem decode_of_concatenated_encodings (text : str) (vocab_size : Z)
    (A B : str) (a b : list Z) :
  BasicTokenizer.encode (fst (BasicTokenizer.train init text vocab_size)) A = Ok a ->
  BasicTokenizer.encode (fst (BasicTokenizer.train init text vocab_size)) B = Ok b ->
  BasicTokenizer.decode (fst (BasicTokenizer.train init text vocab_size)) (a ++ b)
  = Ok (A ++ B).
Proof.
  intros Ha Hb.
  pose proof (trained_consistent _ _ _ (basic_train_outcome text vocab_size)) as Hc.
  destruct (encode_join _ A a Hc Ha) as (bsA & EA & JA).
  destruct (encode_join _ B b Hc Hb) as (bsB & EB & JB).
  unfold BasicTokenizer.decode, BaseTokenizer.decode.
  rewrite join_vocab_app, JA, JB. cbn [bind]. f_equal.
  destruct (utf8_encode_inv _ _ EA) as [WA _]. destruct (utf8_encode_inv _ _ EB) as [WB _].
  assert (Hwf : Utf8.well_formed (A ++ B)) by now apply Forall_app.
  destruct (utf8_encode_ok (A ++ B) Hwf) as (bs & Hbs & _ & Hd).
  rewrite utf8_encode_app, EA, EB in Hbs. cbn [bind] in Hbs. injection Hbs as <-.
  exact Hd.
Qed.

Lemma decode_of_concatenated_encodings_witness :
  BasicTokenizer.decode (fst (BasicTokenizer.train init [97; 98; 97; 98] 257))
    ([97] ++ [98; 99])
  = Ok ([97] ++ [98; 99]).
Proof.
  apply (decode_of_concatenated_encodings [97; 98; 97; 98] 257 [97] [98; 99] [97] [98; 99]);
    reflexivity.
Defined.

(** ** The pair a segmented training round merges *)

Lemma first_seen_app (a b seen : list pair) :
  first_seen (a ++ b) seen = first_seen b (first_seen a seen).
Proof.
  revert seen. induction a as [|q a IH]; intros seen; cbn [app first_seen]; [reflexivity|].
  destruct (existsb (pair_eqb q) seen); apply IH.
Qed.

Lemma keys_fold_segments (segs : list (list Z)) (acc : stats) :
  PyDict.keys (fold_left (fun st s => getPairStats s (Some st)) segs acc)
  = first_seen (flat_map adjacent segs) (PyDict.keys acc).
Proof.
  revert acc. induction segs as [|s segs IH]; intros acc; cbn [fold_left flat_map];
    [reflexivity|].
  rewrite IH, getPairStats_fold, keys_fold_count, first_seen_app. reflexivity.
Qed.

Lemma count_of_all_pair_stats (segs : list (list Z)) (q : pair) :
  count_of (AdvanceTokenizer.all_pair_stats segs) q
  = sumZ (map (fun s => occurrences s q) segs).
Proof.
  unfold count_of, AdvanceTokenizer.all_pair_stats. rewrite get_fold_segments.
  cbn [PyDict.get PyDict.empty add_count].
  destruct (Z.eqb_spec (sumZ (map (fun s => occurrences s q) segs)) 0); congruence.
Qed.

(** X19. A round of [AdvanceTokenizer.train] in which some segment has at
    least two elements never raises in [max]: it merges the pair whose
    occurrences summed over all segments are the most, and among equals the
    pair that comes first when the segments are read in order; the pair
    occurs inside one segment, is recorded under [256 + i], and is merged in
    every segment. *)
Theorem segmented_round_most_frequent (i : Z) (rest : list Z)
    (bytes_list : list (list Z)) (tk : tokenizer) :
  (exists s, In s bytes_list /\ (2 <= length s)%nat) ->
  exists p,
    first_max (fun q => sumZ (map (fun s => occurrences s q) bytes_list))
              (first_seen (flat_map adjacent bytes_list) []) p /\
    (exists s, In s bytes_list /\ In p (adjacent s)) /\
    (forall q, sumZ (map (fun s => occurrences s q) bytes_list)
               <= sumZ (map (fun s => occurrences s p) bytes_list)) /\
    AdvanceTokenizer.train_loop (i :: rest) bytes_list tk
    = match learn tk p (256 + i) with
      | (tk', Raise e) => (tk', Raise e)
      | (tk', Ok _) =>
          AdvanceTokenizer.train_loop rest
            (map (fun subword => merge subword p (256 + i)) bytes_list) tk'
      end.
Proof.
  intros (s0 & Hs0 & Hlen). cbn [AdvanceTokenizer.train_loop]. cbv zeta.
  pose proof (max_pair_spec bytes_list) as Hspec. cbv zeta in Hspec.
  destruct (py_max Z.ltb (count_of (AdvanceTokenizer.all_pair_stats bytes_list))
              (PyDict.keys (AdvanceTokenizer.all_pair_stats bytes_list))) as [p|e] eqn:Emax.
  - exists p. apply py_max_first in Emax.
    apply (first_max_ext _ (fun q => sumZ (map (fun s => occurrences s q) bytes_list)))
      in Emax; [|apply count_of_all_pair_stats].
    assert (Hk : PyDict.keys (AdvanceTokenizer.all_pair_stats bytes_list)
                 = first_seen (flat_map adjacent bytes_list) []).
    { unfold AdvanceTokenizer.all_pair_stats. now rewrite keys_fold_segments. }
    rewrite Hk in Emax.
    destruct (first_max_In _ _ _ Emax) as [_ Hmax].
    split; [exact Emax|]. split; [exact Hspec|]. split; [|reflexivity].
    intros q. cbv beta in Hmax.
    destruct (Z.eqb_spec (sumZ (map (fun s => occurrences s q) bytes_list)) 0) as [E0|E0].
    + rewrite E0. apply sumZ_occ_nonneg.
    + apply Hmax. rewrite <- Hk, <- mem_keys.
      unfold PyDict.mem, AdvanceTokenizer.all_pair_stats. rewrite get_fold_segments.
      cbn [PyDict.get PyDict.empty add_count].
      destruct (Z.eqb_spec (sumZ (map (fun s => occurrences s q) bytes_list)) 0);
        [contradiction | reflexivity].
  - exfalso. destruct Hspec as [_ Hshort]. specialize (Hshort s0 Hs0). lia.
Qed.

Lemma segmented_round_most_frequent_witness :
  exists p,
    first_max (fun q => sumZ (map (fun s => occurrences s q) [[1; 2]; [3]; [2; 1; 2]]))
              (first_seen (flat_map adjacent [[1; 2]; [3]; [2; 1; 2]]) []) p /\
    exists s, In s [[1; 2]; [3]; [2; 1; 2]] /\ In p (adjacent s).
Proof.
  destruct (segmented_round_most_frequent 0 [] [[1; 2]; [3]; [2; 1; 2]] init)
    as (p & H1 & H2 & _).
  - exists [1; 2]. split; [now left | cbn; lia].
  - exists p. split; assumption.
Defined.

Lemma encode_ids_below_vocab_size_witness :
  PyDict.get (vocab_dict (fst (BasicTokenizer.train init [97; 98; 97; 98] 257))) 256 <> None /\
  (snd (BasicTokenizer.train init [97; 98; 97; 98] 257) = Ok tt -> 0 <= 256 < 257).
Proof.
  apply (proj1 (encode_ids_below_vocab_size words [97; 98; 97; 98] 257 [97; 98; 99] [256; 99])).
  - reflexivity.
  - now left.
Defined.
